(** * Blade harmonics: the data generator of the visualiser

    A shallow embedding of [generateData] and [formatXAxis] of
    [blade-harmonics-app/src/App.tsx], of the earlier single-pass
    [generateData], and the properties of the datasets they build.

    JavaScript numbers are kept abstract behind the interface [JSNumber]:
    the loops, the arrays and the objects are modelled once, for any
    arithmetic.  The structural results hold for every instance.  Three
    instances follow: the doubles with the primitive binary64 operations
    ([Binary64]), on which the code is run at given inputs; the reals with
    operations that round as binary64 does ([Rounded]), for the sums that
    hold up to a tolerance; and the reals without rounding ([RealNumber]),
    for the order and the bounds, which rounding preserves. *)

From Corelib Require Import PrimFloat.
From Stdlib Require Import ZArith List String Reals Lra Lia.
From stdpp Require Import base option list gmap strings pretty.

Open Scope Z_scope.

(** ** Numbers *)

(** The operations on numbers that the source uses.  [ofZ] reads an integer
    (a literal or a loop counter) as a number; [Math_pow] is [Math.pow] at an
    integer exponent; [strict_eq] is [===]; [toFixed x d] is [x.toFixed(d)]. *)
Class JSNumber (num : Type) := {
  ofZ : Z -> num;
  Math_PI : num;
  add : num -> num -> num;
  sub : num -> num -> num;
  mul : num -> num -> num;
  div : num -> num -> num;
  Math_sin : num -> num;
  Math_pow : num -> Z -> num;
  strict_eq : num -> num -> bool;
  toFixed : num -> nat -> string
}.

(** ** Data *)

(** [interface DataPoint { theta; thetaLabel; [key: string]: number | string }]:
    the two named fields, and the numeric properties set under computed keys
    ([blade0], [blade1], ..., [sum]) as a finite map. *)
Record DataPoint (num : Type) := mkDataPoint {
  theta : num;
  thetaLabel : string;
  props : gmap string num
}.
Arguments mkDataPoint {num} _ _ _.
Arguments theta {num} _.
Arguments thetaLabel {num} _.
Arguments props {num} _.

(** The value returned by [generateData]: [{ sinData, sin2Data }]. *)
Record Datasets (num : Type) := mkDatasets {
  sinData : list (DataPoint num);
  sin2Data : list (DataPoint num)
}.
Arguments mkDatasets {num} _ _.
Arguments sinData {num} _.
Arguments sin2Data {num} _.

(** The key [`blade${b}`]. *)
Definition blade_key (b : nat) : string := "blade" +:+ pretty b.

(** The key ['sum']. *)
Definition sum_key : string := "sum".

(** ** Loops and failure *)

(** [for (let k = 0; k < n; k++)] visits [0, 1, ..., n-1], and nothing when
    [n <= 0]. *)
Definition upto (n : Z) : list nat := seq 0 (Z.to_nat n).

(** A loop whose body can fail.  [None] stands for a read of an array slot
    that does not exist: JavaScript yields [undefined] there, and the run
    either throws a [TypeError] (a property of [undefined]) or goes on with
    [NaN]. *)
Fixpoint foldM {S A : Type} (body : S -> A -> option S) (s : S) (l : list A)
  : option S :=
  match l with
  | [] => Some s
  | x :: l' => s' ← body s x; foldM body s' l'
  end.

(** [arr.reduce((sum, val) => sum + val, 0)]. *)
Definition reduce_sum {num : Type} `{!JSNumber num} (arr : list num) : num :=
  fold_left add arr (ofZ 0).

(** [arr[i] += v] on an array that has slot [i]. *)
Definition add_at {num : Type} `{!JSNumber num} (arr : list num) (i : nat) (v : num)
  : option (list num) :=
  s ← arr !! i; Some (<[i := add s v]> arr).

(** ** The current [generateData] *)

Section GenerateData.
Context {num : Type} `{!JSNumber num}.

(** The component state that the closure reads. *)
Variable numBlades : Z.
Variable phaseShift : num.
Variable resolution : Z.
Variable subtractMean : bool.

(** [(2 * Math.PI * k) / n] *)
Definition turn_fraction (k : nat) (n : Z) : num :=
  div (mul (mul (ofZ 2) Math_PI) (ofZ (Z.of_nat k))) (ofZ n).

(** [const theta = (2 * Math.PI * i) / resolution] *)
Definition theta_of (i : nat) : num := turn_fraction i resolution.

(** [const phase = phaseShift + (2 * Math.PI * b) / numBlades] *)
Definition phase_of (b : nat) : num :=
  add phaseShift (turn_fraction b numBlades).

(** [const sinValue = Math.sin(theta + phase)] *)
Definition sinValue (i b : nat) : num :=
  Math_sin (add (theta_of i) (phase_of b)).

(** [const sin2Value = Math.pow(Math.sin(theta + phase), 2)] *)
Definition sin2Value (i b : nat) : num :=
  Math_pow (Math_sin (add (theta_of i) (phase_of b))) 2.

(** [(theta / Math.PI).toFixed(2) + 'π'] *)
Definition thetaLabel_of (th : num) : string :=
  toFixed (div th Math_PI) 2 +:+ "π".

(** The arrays filled by the first pass. *)
Record Collected := mkCollected {
  bladeDataSin : list (list num);
  bladeDataSin2 : list (list num);
  sinSums : list num;
  sin2Sums : list num
}.

(** [sinSums] and [sin2Sums] after the loop that pushes a zero per sample. *)
Definition zero_sums : list num :=
  fold_left (fun sums _ => sums ++ [ofZ 0]) (upto resolution) [].

(** The rows and running sums while one blade is sampled. *)
Record BladeRun := mkBladeRun {
  bladeSin : list num;
  bladeSin2 : list num;
  runSin : list num;
  runSin2 : list num
}.

(** Body of the loop over [i] for blade [b] (first pass). *)
Definition sample_blade (b : nat) (r : BladeRun) (i : nat) : option BladeRun :=
  let v := sinValue i b in
  let v2 := sin2Value i b in
  s ← add_at (runSin r) i v;
  s2 ← add_at (runSin2 r) i v2;
  Some (mkBladeRun (bladeSin r ++ [v]) (bladeSin2 r ++ [v2]) s s2).

(** Body of the loop over [b] (first pass). *)
Definition collect_blade (c : Collected) (b : nat) : option Collected :=
  r ← foldM (sample_blade b) (mkBladeRun [] [] (sinSums c) (sin2Sums c))
            (upto resolution);
  Some (mkCollected (bladeDataSin c ++ [bladeSin r])
                    (bladeDataSin2 c ++ [bladeSin2 r])
                    (runSin r) (runSin2 r)).

(** First pass: collect all data and calculate sums. *)
Definition firstPass : option Collected :=
  foldM collect_blade (mkCollected [] [] zero_sums zero_sums) (upto numBlades).

(** The means over the rotation. *)
Record Means := mkMeans {
  sinBladeMeans : list num;
  sin2BladeMeans : list num;
  sinSumMean : num;
  sin2SumMean : num
}.

(** Body of the loop that pushes the two means of blade [b]. *)
Definition blade_means (c : Collected) (m : list num * list num) (b : nat)
  : option (list num * list num) :=
  row ← bladeDataSin c !! b;
  row2 ← bladeDataSin2 c !! b;
  let sinMean := div (reduce_sum row) (ofZ resolution) in
  let sin2Mean := div (reduce_sum row2) (ofZ resolution) in
  Some (m.1 ++ [sinMean], m.2 ++ [sin2Mean]).

(** Calculate means over the rotation if [subtractMean] is enabled. *)
Definition computeMeans (c : Collected) : option Means :=
  if subtractMean then
    m ← foldM (blade_means c) ([], []) (upto numBlades);
    Some (mkMeans m.1 m.2
            (div (reduce_sum (sinSums c)) (ofZ resolution))
            (div (reduce_sum (sin2Sums c)) (ofZ resolution)))
  else Some (mkMeans [] [] (ofZ 0) (ofZ 0)).

(** [subtractMean ? data[b][i] - means[b] : data[b][i]] *)
Definition centred_cell (data : list (list num)) (means : list num)
  (b i : nat) : option num :=
  row ← data !! b;
  x ← row !! i;
  if subtractMean then m ← means !! b; Some (sub x m) else Some x.

(** [subtractMean ? sums[i] - mean : sums[i]] *)
Definition centred_sum (sums : list num) (mean : num) (i : nat) : option num :=
  s ← sums !! i;
  Some (if subtractMean then sub s mean else s).

(** Body of the loop over [b] (second pass): the two [blade${b}] properties. *)
Definition set_blade (c : Collected) (m : Means) (i : nat)
  (p : gmap string num * gmap string num) (b : nat)
  : option (gmap string num * gmap string num) :=
  x ← centred_cell (bladeDataSin c) (sinBladeMeans m) b i;
  x2 ← centred_cell (bladeDataSin2 c) (sin2BladeMeans m) b i;
  Some (<[blade_key b := x]> p.1, <[blade_key b := x2]> p.2).

(** Body of the loop over [i] (second pass): one point per dataset. *)
Definition push_point (c : Collected) (m : Means) (d : Datasets num) (i : nat)
  : option (Datasets num) :=
  let th := theta_of i in
  let label := thetaLabel_of th in
  p ← foldM (set_blade c m i) (∅, ∅) (upto numBlades);
  s ← centred_sum (sinSums c) (sinSumMean m) i;
  s2 ← centred_sum (sin2Sums c) (sin2SumMean m) i;
  Some (mkDatasets
          (sinData d ++ [mkDataPoint th label (<[sum_key := s]> p.1)])
          (sin2Data d ++ [mkDataPoint th label (<[sum_key := s2]> p.2)])).

(** Second pass: create data points with optional mean subtraction. *)
Definition secondPass (c : Collected) (m : Means) : option (Datasets num) :=
  foldM (push_point c m) (mkDatasets [] []) (upto resolution).

Definition generateData : option (Datasets num) :=
  c ← firstPass; m ← computeMeans c; secondPass c m.

(** ** The earlier, single-pass [generateData] *)

(** Body of the loop over [b]: the properties and the two running sums. *)
Definition old_blade (i : nat)
  (st : gmap string num * gmap string num * num * num) (b : nat)
  : gmap string num * gmap string num * num * num :=
  let '(p, p2, sinSum, sin2Sum) := st in
  let v := sinValue i b in
  let v2 := sin2Value i b in
  (<[blade_key b := v]> p, <[blade_key b := v2]> p2, add sinSum v, add sin2Sum v2).

(** Body of the loop over [i]. *)
Definition old_point (d : Datasets num) (i : nat) : Datasets num :=
  let th := theta_of i in
  let label := thetaLabel_of th in
  let '(p, p2, sinSum, sin2Sum) :=
    fold_left (old_blade i) (upto numBlades) (∅, ∅, ofZ 0, ofZ 0) in
  mkDatasets
    (sinData d ++ [mkDataPoint th label (<[sum_key := sinSum]> p)])
    (sin2Data d ++ [mkDataPoint th label (<[sum_key := sin2Sum]> p2)]).

Definition generateData_old : Datasets num :=
  fold_left old_point (upto resolution) (mkDatasets [] []).

End GenerateData.

(** ** The tick formatter *)


(** ** Reading a data point *)

(** [point[`blade${b}`]] *)
Definition blade_value {num : Type} (p : DataPoint num) (b : nat) : option num :=
  props p !! blade_key b.

(** [point['sum']] *)
Definition sum_value {num : Type} (p : DataPoint num) : option num :=
  props p !! sum_key.

(** [data[b][i]] *)
Definition cell {num : Type} (data : list (list num)) (b i : nat) : option num :=
  row ← data !! b; row !! i.

(** ** Arithmetic without rounding *)

(** [x.toFixed(f)] for a real [x] below [10^21] in magnitude: the sign, then
    the integer nearest to [|x| * 10^f] (the larger one on a tie) written
    with at least [f + 1] digits, the last [f] after the point. *)
Definition toFixed_real (x : R) (f : nat) : string :=
  let n := Z.to_N (Int_part (Rabs x * 10 ^ f + / 2)) in
  let m := pretty n in
  let m := String.concat "" (replicate (f + 1 - String.length m) "0") +:+ m in
  let k := String.length m in
  let s := if Rlt_dec x 0 then "-" else "" in
  s +:+ (if decide (f = 0%nat) then m
         else substring 0 (k - f) m +:+ "." +:+ substring (k - f) f m).

(** The numbers as reals: every operation is the exact one. *)
#[export] Instance RealNumber : JSNumber R := {|
  ofZ := IZR;
  Math_PI := PI;
  add := Rplus;
  sub := Rminus;
  mul := Rmult;
  div := Rdiv;
  Math_sin := sin;
  Math_pow := powerRZ;
  strict_eq := fun x y => if Req_dec_T x y then true else false;
  toFixed := toFixed_real
|}.

(** ** Binary64 arithmetic *)

(** An integer as a double, exact up to [2^53] in magnitude. *)
Fixpoint float_of_pos (p : positive) : float :=
  match p with
  | xH => 1%float
  | xO q => PrimFloat.mul 2%float (float_of_pos q)
  | xI q => PrimFloat.add (PrimFloat.mul 2%float (float_of_pos q)) 1%float
  end.

Definition float_of_Z (z : Z) : float :=
  match z with
  | Z0 => 0%float
  | Zpos p => float_of_pos p
  | Zneg p => PrimFloat.opp (float_of_pos p)
  end.

(** The numbers as IEEE 754 doubles, rounding to nearest: [+], [-], [*], [/]
    and [===] are the primitive operations and [Math.PI] is the double
    nearest to pi.  [Math.sin], [Math.pow] and [toFixed] belong to the
    engine and are taken as parameters. *)
Definition Binary64 (Math_sin64 : float -> float)
  (Math_pow64 : float -> Z -> float) (toFixed64 : float -> nat -> string)
  : JSNumber float := {|
  ofZ := float_of_Z;
  Math_PI := 0x1.921fb54442d18p+1%float;
  add := PrimFloat.add;
  sub := PrimFloat.sub;
  mul := PrimFloat.mul;
  div := PrimFloat.div;
  Math_sin := Math_sin64;
  Math_pow := Math_pow64;
  strict_eq := PrimFloat.eqb;
  toFixed := toFixed64
|}.

(** ** Rounded arithmetic *)

(** The operations of an arithmetic on reals that rounds: the value of
    [Math.PI], the results of [+], [-], [*], [/], of [Math.sin] and of
    [Math.pow]. *)
Record Rounding := mkRounding {
  r_pi : R;
  r_add : R -> R -> R;
  r_sub : R -> R -> R;
  r_mul : R -> R -> R;
  r_div : R -> R -> R;
  r_sin : R -> R;
  r_pow : R -> Z -> R
}.

(** The numbers as the reals that such an arithmetic produces.  Integers are
    read exactly, which binary64 does up to [2^53]. *)
Definition Rounded (a : Rounding) : JSNumber R := {|
  ofZ := IZR;
  Math_PI := r_pi a;
  add := r_add a;
  sub := r_sub a;
  mul := r_mul a;
  div := r_div a;
  Math_sin := r_sin a;
  Math_pow := r_pow a;
  strict_eq := fun x y => if Req_dec_T x y then true else false;
  toFixed := toFixed_real
|}.

(** Half an ulp of 1 in binary64: the relative error of rounding to nearest. *)
Definition unit_roundoff : R := (/ 2 ^ 53)%R.

(** Half the smallest subnormal of binary64: the absolute error of rounding
    to nearest where the result underflows. *)
Definition underflow_unit : R := (/ 2 ^ 1075)%R.

(** [x] is [exact] rounded as binary64 rounds a finite result. *)
Definition rounds (x exact : R) : Prop :=
  (Rabs (x - exact) <= unit_roundoff * Rabs exact + underflow_unit)%R.

(** What binary64 with round to nearest guarantees, away from overflow:
    [Math.PI] is within an ulp of pi, every [+], [-], [*], [/] is the exact
    result rounded, [Math.sin] is within [2^-52] of the sine on [-128, 128]
    and [Math.pow(x, 2)] is within two roundings of the square on [-2, 2]. *)
Definition binary64_accurate (a : Rounding) : Prop :=
  (Rabs (r_pi a - PI) <= 2 * unit_roundoff /\
   (forall x y, Rabs (x + y) <= 2 ^ 64 -> rounds (r_add a x y) (x + y)) /\
   (forall x y, Rabs (x - y) <= 2 ^ 64 -> rounds (r_sub a x y) (x - y)) /\
   (forall x y, Rabs (x * y) <= 2 ^ 64 -> rounds (r_mul a x y) (x * y)) /\
   (forall x y, y <> 0 -> Rabs (x / y) <= 2 ^ 64 -> rounds (r_div a x y) (x / y)) /\
   (forall x, Rabs x <= 128 -> Rabs (r_sin a x - sin x) <= 2 * unit_roundoff) /\
   (forall x, Rabs x <= 2 ->
      Rabs (r_pow a x 2 - x * x) <= 2 * unit_roundoff * (x * x) + underflow_unit))%R.

(** The arithmetic that does not round. *)
Definition exact_rounding : Rounding :=
  mkRounding PI Rplus Rminus Rmult Rdiv sin powerRZ.

(** ** What the loops compute

    Closed forms of the arrays and objects that the loops build; the lemmas
    below relate them to the loops, and the theorems are stated on
    [generateData] itself. *)

Section ClosedForms.
Context {num : Type} `{!JSNumber num}.
Variable numBlades : Z.
Variable phaseShift : num.
Variable resolution : Z.
Variable subtractMean : bool.

(** The running sum of sample [i] once blades [0 .. n-1] are added, in the
    order of the additions. *)
Definition blade_total (f : nat -> nat -> num) (n i : nat) : num :=
  reduce_sum (f i <$> seq 0 n).

(** The running sums while blade [b] has been added to the first [k]
    samples only. *)
Definition running (f : nat -> nat -> num) (b k : nat) : list num :=
  (fun i => if decide (i < k)%nat then blade_total f (S b) i
            else blade_total f b i) <$> upto resolution.

(** The row of blade [b]: one raw value per sample. *)
Definition raw_row (f : nat -> nat -> num) (b : nat) : list num :=
  (fun i => f i b) <$> upto resolution.

(** The unweighted arithmetic mean over the [resolution] samples. *)
Definition mean_of (l : list num) : num :=
  div (reduce_sum l) (ofZ resolution).

(** The value stored for blade [b] at sample [i]. *)
Definition stored (f : nat -> nat -> num) (i b : nat) : num :=
  if subtractMean then sub (f i b) (mean_of (raw_row f b)) else f i b.

(** The value stored under [sum] at sample [i]. *)
Definition stored_sum (f : nat -> nat -> num) (i : nat) : num :=
  let B := Z.to_nat numBlades in
  if subtractMean
  then sub (blade_total f B i) (mean_of (blade_total f B <$> upto resolution))
  else blade_total f B i.

(** The properties [blade0 .. blade(n-1)] holding [g 0 .. g (n-1)]. *)
Definition blade_props (g : nat -> num) (n : nat) : gmap string num :=
  fold_left (fun p b => <[blade_key b := g b]> p) (seq 0 n) ∅.

(** The data point of sample [i] in the dataset of [f]. *)
Definition point_of (f : nat -> nat -> num) (i : nat) : DataPoint num :=
  let th := theta_of resolution i in
  mkDataPoint th (thetaLabel_of th)
    (<[sum_key := stored_sum f i]>
       (blade_props (stored f i) (Z.to_nat numBlades))).

(** The arrays of the first pass after [n] blades. *)
Definition collected_after (n : nat) : Collected :=
  let sinV := sinValue numBlades phaseShift resolution in
  let sin2V := sin2Value numBlades phaseShift resolution in
  mkCollected (raw_row sinV <$> seq 0 n) (raw_row sin2V <$> seq 0 n)
              (running sinV n 0) (running sin2V n 0).

(** The means of the second step when [subtractMean] is set. *)
Definition means_after (n : nat) : Means :=
  let sinV := sinValue numBlades phaseShift resolution in
  let sin2V := sin2Value numBlades phaseShift resolution in
  let B := Z.to_nat numBlades in
  mkMeans ((fun b => mean_of (raw_row sinV b)) <$> seq 0 n)
          ((fun b => mean_of (raw_row sin2V b)) <$> seq 0 n)
          (mean_of (blade_total sinV B <$> upto resolution))
          (mean_of (blade_total sin2V B <$> upto resolution)).

End ClosedForms.

(** ** The charts *)

(** [const BLADE_COLORS = [...]]: the colour palette for blades. *)
Definition BLADE_COLORS : list string :=
  ["#8884d8"; "#82ca9d"; "#ffc658"; "#ff7c7c";
   "#a78bfa"; "#fb923c"; "#34d399"; "#f472b6"].

(** [stroke={BLADE_COLORS[b % BLADE_COLORS.length]}]; [None] is a read past
    the palette, where JavaScript yields [undefined]. *)
Definition blade_stroke (b : nat) : option string :=
  BLADE_COLORS !! (b mod length BLADE_COLORS)%nat.

(** The [dataKey]s of the lines of a chart, in the order they are drawn:
    [Array.from({ length: numBlades }, (_, b) => <Line dataKey={`blade${b}`} />)]
    and then [<Line dataKey="sum" />]. *)
Definition line_keys (numBlades : Z) : list string :=
  (blade_key <$> upto numBlades) ++ [sum_key].

(** [labelFormatter={(value) => `θ = ${(value / Math.PI).toFixed(2)}π`}] *)
Definition labelFormatter {num : Type} `{!JSNumber num} (value : num) : string :=
  "θ = " +:+ toFixed (div value Math_PI) 2 +:+ "π".

(** * Properties *)

(** ** Loops *)

Lemma foldM_snoc {S A : Type} (body : S -> A -> option S) (s : S) (l : list A) (x : A) :
  foldM body s (l ++ [x]) = s' ← foldM body s l; body s' x.
Proof.
  revert s. induction l as [|y l IH]; intros s; simpl.
  - by destruct (body s x).
  - destruct (body s y) as [s'|]; simpl; [apply IH | done].
Qed.

Lemma upto_lookup (n : Z) (i : nat) :
  (i < Z.to_nat n)%nat -> upto n !! i = Some i.
Proof. intros Hi. unfold upto. by rewrite lookup_seq_lt. Qed.

Lemma upto_lookup_inv (n : Z) (i x : nat) :
  upto n !! i = Some x -> x = i /\ (i < Z.to_nat n)%nat.
Proof. unfold upto. intros Hx. apply lookup_seq in Hx. lia. Qed.

Lemma upto_length (n : Z) : length (upto n) = Z.to_nat n.
Proof. unfold upto. apply length_seq. Qed.

Lemma fmap_upto_lookup {A : Type} (g : nat -> A) (n : Z) (i : nat) :
  (i < Z.to_nat n)%nat -> (g <$> upto n) !! i = Some (g i).
Proof. intros Hi. by rewrite list_lookup_fmap, upto_lookup. Qed.

Lemma fmap_upto_lookup_inv {A : Type} (g : nat -> A) (n : Z) (i : nat) (x : A) :
  (g <$> upto n) !! i = Some x -> x = g i /\ (i < Z.to_nat n)%nat.
Proof.
  rewrite list_lookup_fmap. intros Hx.
  destruct (upto n !! i) as [j|] eqn:Hj; simplify_eq/=.
  apply upto_lookup_inv in Hj as [-> ?]. done.
Qed.

Lemma push_loop {A B : Type} (g : B -> A) (l : list B) (acc : list A) :
  fold_left (fun a x => a ++ [g x]) l acc = acc ++ (g <$> l).
Proof.
  revert acc. induction l as [|x l IH]; intros acc; simpl.
  - by rewrite app_nil_r.
  - rewrite IH. by rewrite <- app_assoc.
Qed.

Section Loops.
Context {num : Type} `{!JSNumber num}.
Variable numBlades : Z.
Variable phaseShift : num.
Variable resolution : Z.
Variable subtractMean : bool.

#[local] Abbreviation N := (Z.to_nat resolution).
#[local] Abbreviation B := (Z.to_nat numBlades).
#[local] Abbreviation sinV := (sinValue numBlades phaseShift resolution).
#[local] Abbreviation sin2V := (sin2Value numBlades phaseShift resolution).

Lemma blade_total_S (f : nat -> nat -> num) (n i : nat) :
  blade_total f (S n) i = add (blade_total f n i) (f i n).
Proof.
  unfold blade_total, reduce_sum.
  rewrite seq_S, fmap_app, fold_left_app. done.
Qed.

Lemma zero_sums_eq (f : nat -> nat -> num) :
  zero_sums resolution = running resolution f 0 0.
Proof. unfold zero_sums. by rewrite push_loop. Qed.

Lemma running_start (f : nat -> nat -> num) (b : nat) :
  running resolution f b 0 = blade_total f b <$> upto resolution.
Proof. done. Qed.

Lemma running_end (f : nat -> nat -> num) (b : nat) :
  running resolution f b N = running resolution f (S b) 0.
Proof.
  unfold running. apply list_fmap_ext. intros i x Hx.
  apply upto_lookup_inv in Hx as [-> Hi].
  by rewrite decide_True.
Qed.

(** [sums[k] += f k b] moves the frontier of blade [b] past sample [k]. *)
Lemma add_at_running (f : nat -> nat -> num) (b k : nat) :
  (k < N)%nat ->
  add_at (running resolution f b k) k (f k b)
  = Some (running resolution f b (S k)).
Proof.
  intros Hk. unfold add_at, running.
  rewrite fmap_upto_lookup by done. simpl.
  rewrite decide_False by lia. f_equal.
  apply list_eq. intros j.
  destruct (decide (j = k)) as [->|Hjk].
  - rewrite list_lookup_insert_eq by (rewrite length_fmap, upto_length; lia).
    rewrite fmap_upto_lookup by done.
    rewrite decide_True by lia. by rewrite blade_total_S.
  - rewrite list_lookup_insert_ne by done.
    rewrite !list_lookup_fmap.
    destruct (upto resolution !! j) as [x|] eqn:Hx; simpl; [|done].
    apply upto_lookup_inv in Hx as [-> _].
    repeat case_decide; done || lia.
Qed.

(** The loop over the samples of blade [b], stopped after [k] rounds. *)
Lemma sample_blade_loop (b k : nat) :
  (k <= N)%nat ->
  foldM (sample_blade numBlades phaseShift resolution b)
        (mkBladeRun [] [] (running resolution sinV b 0) (running resolution sin2V b 0))
        (seq 0 k)
  = Some (mkBladeRun ((fun i => sinV i b) <$> seq 0 k)
                     ((fun i => sin2V i b) <$> seq 0 k)
                     (running resolution sinV b k)
                     (running resolution sin2V b k)).
Proof.
  induction k as [|k IH]; intros Hk; [done|].
  rewrite seq_S, foldM_snoc, IH by lia. simpl.
  unfold sample_blade; simpl.
  rewrite !add_at_running by lia. simpl.
  by rewrite !fmap_app.
Qed.

Lemma collect_blade_loop (n : nat) :
  foldM (collect_blade numBlades phaseShift resolution)
        (mkCollected [] [] (zero_sums resolution) (zero_sums resolution))
        (seq 0 n)
  = Some (collected_after numBlades phaseShift resolution n).
Proof.
  induction n as [|n IH].
  - simpl. unfold collected_after. simpl.
    by rewrite (zero_sums_eq sinV) at 1; rewrite (zero_sums_eq sin2V).
  - rewrite seq_S, foldM_snoc, IH. simpl.
    unfold collect_blade; simpl. unfold upto.
    rewrite sample_blade_loop by done. simpl.
    unfold collected_after. rewrite seq_S, !fmap_app, !running_end. done.
Qed.

Lemma firstPass_eq :
  firstPass numBlades phaseShift resolution
  = Some (collected_after numBlades phaseShift resolution B).
Proof. apply collect_blade_loop. Qed.

(** The arrays and the means that the second pass reads. *)
#[local] Abbreviation arrays := (collected_after numBlades phaseShift resolution B).
#[local] Abbreviation means :=
  (if subtractMean then means_after numBlades phaseShift resolution B
   else mkMeans [] [] (ofZ 0) (ofZ 0)).

Lemma blade_means_loop (n : nat) :
  (n <= B)%nat ->
  foldM (blade_means resolution arrays) ([], []) (seq 0 n)
  = Some ((fun b => mean_of resolution (raw_row resolution sinV b)) <$> seq 0 n,
          (fun b => mean_of resolution (raw_row resolution sin2V b)) <$> seq 0 n).
Proof.
  induction n as [|n IH]; intros Hn; [done|].
  rewrite seq_S, foldM_snoc, IH by lia. simpl.
  unfold blade_means; simpl.
  rewrite !list_lookup_fmap, !lookup_seq_lt by lia. simpl.
  by rewrite !fmap_app.
Qed.

Lemma computeMeans_eq :
  computeMeans numBlades resolution subtractMean arrays = Some means.
Proof.
  unfold computeMeans. destruct subtractMean; [|done].
  unfold upto. rewrite blade_means_loop by done. done.
Qed.

Lemma cell_collected_sin (b i : nat) :
  (b < B)%nat -> (i < N)%nat ->
  cell (bladeDataSin arrays) b i = Some (sinV i b).
Proof.
  intros Hb Hi. unfold cell; simpl.
  rewrite list_lookup_fmap, lookup_seq_lt by done. simpl.
  unfold raw_row. by rewrite fmap_upto_lookup.
Qed.

Lemma cell_collected_sin2 (b i : nat) :
  (b < B)%nat -> (i < N)%nat ->
  cell (bladeDataSin2 arrays) b i = Some (sin2V i b).
Proof.
  intros Hb Hi. unfold cell; simpl.
  rewrite list_lookup_fmap, lookup_seq_lt by done. simpl.
  unfold raw_row. by rewrite fmap_upto_lookup.
Qed.

Lemma centred_cell_sin (b i : nat) :
  (b < B)%nat -> (i < N)%nat ->
  centred_cell subtractMean (bladeDataSin arrays) (sinBladeMeans means) b i
  = Some (stored resolution subtractMean sinV i b).
Proof.
  intros Hb Hi. pose proof (cell_collected_sin b i Hb Hi) as Hc.
  unfold cell in Hc. unfold centred_cell, stored.
  destruct (bladeDataSin arrays !! b) as [row|]; simpl in *; [|done].
  rewrite Hc. simpl. destruct subtractMean; [|done]. simpl.
  by rewrite list_lookup_fmap, lookup_seq_lt.
Qed.

Lemma centred_cell_sin2 (b i : nat) :
  (b < B)%nat -> (i < N)%nat ->
  centred_cell subtractMean (bladeDataSin2 arrays) (sin2BladeMeans means) b i
  = Some (stored resolution subtractMean sin2V i b).
Proof.
  intros Hb Hi. pose proof (cell_collected_sin2 b i Hb Hi) as Hc.
  unfold cell in Hc. unfold centred_cell, stored.
  destruct (bladeDataSin2 arrays !! b) as [row|]; simpl in *; [|done].
  rewrite Hc. simpl. destruct subtractMean; [|done]. simpl.
  by rewrite list_lookup_fmap, lookup_seq_lt.
Qed.

Lemma centred_sum_sin (i : nat) :
  (i < N)%nat ->
  centred_sum subtractMean (sinSums arrays) (sinSumMean means) i
  = Some (stored_sum numBlades resolution subtractMean sinV i).
Proof.
  intros Hi. unfold centred_sum, stored_sum; simpl.
  rewrite running_start, fmap_upto_lookup by done. simpl.
  by destruct subtractMean.
Qed.

Lemma centred_sum_sin2 (i : nat) :
  (i < N)%nat ->
  centred_sum subtractMean (sin2Sums arrays) (sin2SumMean means) i
  = Some (stored_sum numBlades resolution subtractMean sin2V i).
Proof.
  intros Hi. unfold centred_sum, stored_sum; simpl.
  rewrite running_start, fmap_upto_lookup by done. simpl.
  by destruct subtractMean.
Qed.

Lemma blade_props_S (g : nat -> num) (n : nat) :
  blade_props g (S n) = <[blade_key n := g n]> (blade_props g n).
Proof. unfold blade_props. by rewrite seq_S, fold_left_app. Qed.

Lemma set_blade_loop (i n : nat) :
  (i < N)%nat -> (n <= B)%nat ->
  foldM (set_blade subtractMean arrays means i) (∅, ∅) (seq 0 n)
  = Some (blade_props (stored resolution subtractMean sinV i) n,
          blade_props (stored resolution subtractMean sin2V i) n).
Proof.
  intros Hi. induction n as [|n IH]; intros Hn; [done|].
  rewrite seq_S, foldM_snoc, IH by lia. simpl.
  unfold set_blade.
  rewrite centred_cell_sin, centred_cell_sin2 by lia. simpl.
  by rewrite !blade_props_S.
Qed.

Lemma push_point_loop (k : nat) :
  (k <= N)%nat ->
  foldM (push_point numBlades resolution subtractMean arrays means)
        (mkDatasets [] []) (seq 0 k)
  = Some (mkDatasets
            (point_of numBlades resolution subtractMean sinV <$> seq 0 k)
            (point_of numBlades resolution subtractMean sin2V <$> seq 0 k)).
Proof.
  induction k as [|k IH]; intros Hk; [done|].
  rewrite seq_S, foldM_snoc, IH by lia. simpl.
  unfold push_point, upto.
  rewrite set_blade_loop by lia. simpl.
  rewrite centred_sum_sin, centred_sum_sin2 by lia. simpl.
  by rewrite !fmap_app.
Qed.

(** [generateData] never reads a missing slot, and this is what it returns. *)
Lemma generateData_eq :
  generateData numBlades phaseShift resolution subtractMean
  = Some (mkDatasets
            (point_of numBlades resolution subtractMean sinV <$> upto resolution)
            (point_of numBlades resolution subtractMean sin2V <$> upto resolution)).
Proof.
  unfold generateData. rewrite firstPass_eq. simpl.
  rewrite computeMeans_eq. simpl.
  unfold secondPass, upto. by rewrite push_point_loop.
Qed.

(** *** The earlier version *)

Lemma old_blade_loop (i n : nat) :
  fold_left (old_blade numBlades phaseShift resolution i) (seq 0 n)
            (∅, ∅, ofZ 0, ofZ 0)
  = (blade_props (sinV i) n, blade_props (sin2V i) n,
     blade_total sinV n i, blade_total sin2V n i).
Proof.
  induction n as [|n IH]; [done|].
  rewrite seq_S, fold_left_app, IH. simpl.
  by rewrite !blade_props_S, !blade_total_S.
Qed.

Lemma old_point_loop (k : nat) :
  fold_left (old_point numBlades phaseShift resolution) (seq 0 k)
            (mkDatasets [] [])
  = mkDatasets (point_of numBlades resolution false sinV <$> seq 0 k)
               (point_of numBlades resolution false sin2V <$> seq 0 k).
Proof.
  induction k as [|k IH]; [done|].
  rewrite seq_S, fold_left_app, IH. simpl.
  unfold old_point, upto. rewrite old_blade_loop. simpl.
  by rewrite !fmap_app.
Qed.

Lemma generateData_old_eq :
  generateData_old numBlades phaseShift resolution
  = mkDatasets (point_of numBlades resolution false sinV <$> upto resolution)
               (point_of numBlades resolution false sin2V <$> upto resolution).
Proof. apply old_point_loop. Qed.

End Loops.

(** ** Keys and properties *)

Lemma blade_key_inj (a b : nat) : blade_key a = blade_key b -> a = b.
Proof.
  unfold blade_key. intros Heq. simpl in Heq.
  injection Heq as Heq. by apply (inj pretty).
Qed.

Lemma blade_key_not_sum (b : nat) : blade_key b <> sum_key.
Proof. unfold blade_key, sum_key. simpl. discriminate. Qed.

Section Points.
Context {num : Type} `{!JSNumber num}.

Lemma blade_props_lookup (g : nat -> num) (n b : nat) :
  blade_props g n !! blade_key b
  = if decide (b < n)%nat then Some (g b) else None.
Proof.
  induction n as [|n IH].
  - rewrite decide_False by lia. apply lookup_empty.
  - rewrite blade_props_S. destruct (decide (n = b)) as [->|Hne].
    + rewrite lookup_insert_eq. by rewrite decide_True by lia.
    + rewrite lookup_insert_ne by (intros Hk; by apply blade_key_inj in Hk).
      rewrite IH. repeat case_decide; done || lia.
Qed.

Lemma blade_props_lookup_sum (g : nat -> num) (n : nat) :
  blade_props g n !! sum_key = None.
Proof.
  induction n as [|n IH]; [apply lookup_empty|].
  rewrite blade_props_S, lookup_insert_ne; [done|apply blade_key_not_sum].
Qed.

Variable numBlades : Z.
Variable resolution : Z.
Variable subtractMean : bool.
Variable f : nat -> nat -> num.

Lemma point_blade_value (i b : nat) :
  blade_value (point_of numBlades resolution subtractMean f i) b
  = if decide (b < Z.to_nat numBlades)%nat
    then Some (stored resolution subtractMean f i b) else None.
Proof.
  unfold blade_value, point_of; simpl.
  rewrite lookup_insert_ne by (intros Hk; symmetry in Hk; by apply blade_key_not_sum in Hk).
  apply blade_props_lookup.
Qed.

Lemma point_sum_value (i : nat) :
  sum_value (point_of numBlades resolution subtractMean f i)
  = Some (stored_sum numBlades resolution subtractMean f i).
Proof. unfold sum_value, point_of; simpl. apply lookup_insert_eq. Qed.

End Points.

(** ** Samples of the returned datasets *)

Section Samples.
Context {num : Type} `{!JSNumber num}.
Variable numBlades : Z.
Variable phaseShift : num.
Variable resolution : Z.
Variable subtractMean : bool.

#[local] Abbreviation sinV := (sinValue numBlades phaseShift resolution).
#[local] Abbreviation sin2V := (sin2Value numBlades phaseShift resolution).
#[local] Abbreviation run := (generateData numBlades phaseShift resolution subtractMean).

Lemma index_in_range (n : Z) (k : nat) :
  Z.of_nat k < n <-> (k < Z.to_nat n)%nat.
Proof. lia. Qed.

Lemma sinData_sample (d : Datasets num) (i : nat) :
  run = Some d -> Z.of_nat i < resolution ->
  sinData d !! i = Some (point_of numBlades resolution subtractMean sinV i).
Proof.
  rewrite generateData_eq. intros [= <-] Hi. simpl.
  apply fmap_upto_lookup. by apply index_in_range.
Qed.

Lemma sin2Data_sample (d : Datasets num) (i : nat) :
  run = Some d -> Z.of_nat i < resolution ->
  sin2Data d !! i = Some (point_of numBlades resolution subtractMean sin2V i).
Proof.
  rewrite generateData_eq. intros [= <-] Hi. simpl.
  apply fmap_upto_lookup. by apply index_in_range.
Qed.

Lemma sinData_sample_inv (d : Datasets num) (i : nat) (p : DataPoint num) :
  run = Some d -> sinData d !! i = Some p ->
  Z.of_nat i < resolution /\ p = point_of numBlades resolution subtractMean sinV i.
Proof.
  rewrite generateData_eq. intros [= <-] Hp. simpl in Hp.
  apply fmap_upto_lookup_inv in Hp as [-> Hi]. split; [lia|done].
Qed.

Lemma sin2Data_sample_inv (d : Datasets num) (i : nat) (p : DataPoint num) :
  run = Some d -> sin2Data d !! i = Some p ->
  Z.of_nat i < resolution /\ p = point_of numBlades resolution subtractMean sin2V i.
Proof.
  rewrite generateData_eq. intros [= <-] Hp. simpl in Hp.
  apply fmap_upto_lookup_inv in Hp as [-> Hi]. split; [lia|done].
Qed.

Lemma generateData_lengths (d : Datasets num) :
  run = Some d ->
  length (sinData d) = Z.to_nat resolution /\
  length (sin2Data d) = Z.to_nat resolution.
Proof.
  rewrite generateData_eq. intros [= <-]. simpl.
  by rewrite !length_fmap, upto_length.
Qed.

(** Reading the properties [blade0 .. blade(B-1)] of a point in order. *)
Lemma mapM_blade_values (f : nat -> nat -> num) (i : nat) :
  mapM (blade_value (point_of numBlades resolution subtractMean f i))
       (upto numBlades)
  = Some (stored resolution subtractMean f i <$> upto numBlades).
Proof.
  apply mapM_Some. apply Forall2_fmap_r, Forall_Forall2_diag.
  apply Forall_forall. intros b Hb. apply list_elem_of_lookup in Hb as [k Hk].
  apply upto_lookup_inv in Hk as [-> Hk].
  rewrite point_blade_value. by rewrite decide_True.
Qed.

End Samples.

(** ** The datasets, for any arithmetic *)

Section Generic.
Context {num : Type} `{!JSNumber num}.

(** C1 (as amended): [generateData] validates nothing.  For every input with
    [numBlades <= 0] or [resolution <= 0] it returns a pair of datasets and
    raises no error: both datasets have [max resolution 0] samples, so they
    are empty when [resolution <= 0], and when [numBlades <= 0] no sample
    carries a per-blade value. *)
Theorem generateData_validates_nothing
  (numBlades : Z) (phaseShift : num) (resolution : Z) (subtractMean : bool) :
  numBlades <= 0 \/ resolution <= 0 ->
  exists d : Datasets num,
    generateData numBlades phaseShift resolution subtractMean = Some d /\
    Z.of_nat (length (sinData d)) = Z.max resolution 0 /\
    Z.of_nat (length (sin2Data d)) = Z.max resolution 0 /\
    (resolution <= 0 -> sinData d = [] /\ sin2Data d = []) /\
    (numBlades <= 0 ->
     forall (p : DataPoint num) (b : nat),
       p ∈ sinData d \/ p ∈ sin2Data d -> blade_value p b = None).
Proof.
  intros _. eexists. split; [apply generateData_eq|]. simpl.
  rewrite !length_fmap, upto_length.
  split; [lia|]. split; [lia|]. split.
  - intros Hres. unfold upto. by replace (Z.to_nat resolution) with 0%nat by lia.
  - intros HB p b [Hp|Hp];
      apply list_elem_of_fmap in Hp as (i & -> & _);
      rewrite point_blade_value; apply decide_False; lia.
Qed.

(** C2: for [numBlades > 0], [resolution > 0], every sample index [i] below
    [resolution] and blade index [b] below [numBlades], the angle of sample
    [i] is [2*pi*i/resolution] in both datasets, the sine value of blade [b]
    collected for it is [sin (angle + (phaseShift + 2*pi*b/numBlades))], and
    the squared value is that sine raised to the power 2; these are the
    values stored in the points when no mean is subtracted. *)
Theorem sample_angle_and_values
  (numBlades : Z) (phaseShift : num) (resolution : Z) (subtractMean : bool)
  (i b : nat) :
  0 < numBlades -> 0 < resolution ->
  Z.of_nat i < resolution -> Z.of_nat b < numBlades ->
  let two_pi := mul (ofZ 2) Math_PI in
  let angle := div (mul two_pi (ofZ (Z.of_nat i))) (ofZ resolution) in
  let phase := add phaseShift (div (mul two_pi (ofZ (Z.of_nat b))) (ofZ numBlades)) in
  let sine := Math_sin (add angle phase) in
  (exists c : Collected,
      firstPass numBlades phaseShift resolution = Some c /\
      cell (bladeDataSin c) b i = Some sine /\
      cell (bladeDataSin2 c) b i = Some (Math_pow sine 2)) /\
  (exists (d : Datasets num) (p p2 : DataPoint num),
      generateData numBlades phaseShift resolution subtractMean = Some d /\
      sinData d !! i = Some p /\ sin2Data d !! i = Some p2 /\
      theta p = angle /\ theta p2 = angle /\
      (subtractMean = false ->
       blade_value p b = Some sine /\
       blade_value p2 b = Some (Math_pow sine 2))).
Proof.
  intros _ _ Hi Hb. simpl. split.
  - eexists. split; [apply firstPass_eq|].
    rewrite cell_collected_sin, cell_collected_sin2 by lia. done.
  - destruct (generateData numBlades phaseShift resolution subtractMean)
      as [d|] eqn:Hd; [|by rewrite generateData_eq in Hd].
    eexists d, _, _. split; [done|].
    split; [by eapply sinData_sample|]. split; [by eapply sin2Data_sample|].
    split; [done|]. split; [done|]. intros ->.
    rewrite !point_blade_value, !decide_True by lia. done.
Qed.

(** C3: for [numBlades > 0] and [resolution > 0], in every sample of both
    datasets: without mean subtraction the [sum] property is the sum, in
    blade order, of the per-blade values stored in that sample; with mean
    subtraction it is the sum over the blades of the raw values of that
    sample, minus the mean over all samples of these per-sample sums. *)
Theorem sum_of_sample
  (numBlades : Z) (phaseShift : num) (resolution : Z) (subtractMean : bool) :
  0 < numBlades -> 0 < resolution ->
  let raw_sum (f : nat -> nat -> num) (i : nat) :=
    reduce_sum (f i <$> upto numBlades) in
  let expected (f : nat -> nat -> num) (i : nat) (p : DataPoint num) :=
    if subtractMean
    then sum_value p
         = Some (sub (raw_sum f i)
                     (div (reduce_sum (raw_sum f <$> upto resolution))
                          (ofZ resolution)))
    else exists vs : list num,
           mapM (blade_value p) (upto numBlades) = Some vs /\
           sum_value p = Some (reduce_sum vs) in
  exists d : Datasets num,
    generateData numBlades phaseShift resolution subtractMean = Some d /\
    (forall (i : nat) (p : DataPoint num), sinData d !! i = Some p ->
       expected (sinValue numBlades phaseShift resolution) i p) /\
    (forall (i : nat) (p : DataPoint num), sin2Data d !! i = Some p ->
       expected (sin2Value numBlades phaseShift resolution) i p).
Proof.
  intros _ _. simpl.
  destruct (generateData numBlades phaseShift resolution subtractMean)
    as [d|] eqn:Hd; [|by rewrite generateData_eq in Hd].
  exists d. split; [done|].
  split; intros i p Hp;
    [ apply (sinData_sample_inv _ _ _ _ _ _ _ Hd) in Hp as [Hi ->]
    | apply (sin2Data_sample_inv _ _ _ _ _ _ _ Hd) in Hp as [Hi ->] ];
    rewrite point_sum_value; unfold stored_sum;
    (destruct subtractMean;
     [ done
     | eexists; split; [apply mapM_blade_values|done] ]).
Qed.

(** C5: with [subtractMean] set, for every sample [i] and blade [b] the
    value stored for the blade is the raw value ([sinValue i b], resp.
    [sin2Value i b]) minus the unweighted arithmetic mean of the raw values
    of that blade over all [resolution] samples; with [subtractMean] clear
    the raw value is stored unchanged. *)
Theorem stored_blade_value
  (numBlades : Z) (phaseShift : num) (resolution : Z) (subtractMean : bool)
  (i b : nat) :
  0 < numBlades -> 0 < resolution ->
  Z.of_nat i < resolution -> Z.of_nat b < numBlades ->
  let blade_mean (f : nat -> nat -> num) :=
    div (reduce_sum ((fun k => f k b) <$> upto resolution)) (ofZ resolution) in
  let expected (f : nat -> nat -> num) :=
    if subtractMean then sub (f i b) (blade_mean f) else f i b in
  exists (d : Datasets num) (p p2 : DataPoint num),
    generateData numBlades phaseShift resolution subtractMean = Some d /\
    sinData d !! i = Some p /\ sin2Data d !! i = Some p2 /\
    blade_value p b
    = Some (expected (sinValue numBlades phaseShift resolution)) /\
    blade_value p2 b
    = Some (expected (sin2Value numBlades phaseShift resolution)).
Proof.
  intros _ _ Hi Hb. simpl.
  destruct (generateData numBlades phaseShift resolution subtractMean)
    as [d|] eqn:Hd; [|by rewrite generateData_eq in Hd].
  eexists d, _, _. split; [done|].
  split; [by eapply sinData_sample|]. split; [by eapply sin2Data_sample|].
  rewrite !point_blade_value, !decide_True by lia. done.
Qed.

(** C9: called with [subtractMean = false], the current [generateData]
    returns exactly the pair of datasets of the earlier [generateData]: the
    same points (angle, label, per-blade values and sum) in the same
    order.  This holds for every input, the valid ones included. *)
Theorem generateData_refines_old
  (numBlades : Z) (phaseShift : num) (resolution : Z) :
  generateData numBlades phaseShift resolution false
  = Some (generateData_old numBlades phaseShift resolution).
Proof. by rewrite generateData_eq, generateData_old_eq. Qed.

End Generic.

(** ** The datasets in exact arithmetic *)

Section Exact.
Local Open Scope R_scope.

Lemma reduce_sum_S (g : nat -> R) (n : nat) :
  reduce_sum (g <$> seq 0 (S n)) = reduce_sum (g <$> seq 0 n) + g n.
Proof. exact (blade_total_S (fun _ => g) n 0%nat). Qed.

Lemma reduce_sum_ext (g h : nat -> R) (n : nat) :
  (forall b, g b = h b) -> reduce_sum (g <$> seq 0 n) = reduce_sum (h <$> seq 0 n).
Proof.
  intros Hgh. f_equal. apply list_fmap_ext. intros _ b _. apply Hgh.
Qed.

Lemma reduce_sum_nonneg (g : nat -> R) (n : nat) :
  (forall b, 0 <= g b) -> 0 <= reduce_sum (g <$> seq 0 n).
Proof.
  intros Hg. induction n as [|n IH].
  - simpl. unfold reduce_sum. simpl. lra.
  - rewrite reduce_sum_S. specialize (Hg n). lra.
Qed.

(** Sines at equally spaced angles: the sum telescopes. *)
Lemma sin_sum_telescope (x d : R) (n : nat) :
  2 * sin (d / 2) * reduce_sum ((fun b => sin (x + INR b * d)) <$> seq 0 n)
  = cos (x - d / 2) - cos (x + INR n * d - d / 2).
Proof.
  induction n as [|n IH].
  - unfold reduce_sum. simpl.
    replace (x + 0 * d - d / 2) with (x - d / 2) by lra. lra.
  - rewrite reduce_sum_S, Rmult_plus_distr_l, IH.
    replace (x + INR (S n) * d - d / 2) with ((x + INR n * d) + d / 2)
      by (rewrite S_INR; lra).
    replace (x + INR n * d - d / 2) with ((x + INR n * d) - d / 2) by lra.
    generalize (x + INR n * d) (d / 2) (cos (x - d / 2)). intros a h c.
    rewrite cos_minus, cos_plus. ring.
Qed.

(** Cosines at equally spaced angles: the sum telescopes. *)
Lemma cos_sum_telescope (y e : R) (n : nat) :
  2 * sin (e / 2) * reduce_sum ((fun b => cos (y + INR b * e)) <$> seq 0 n)
  = sin (y + INR n * e - e / 2) - sin (y - e / 2).
Proof.
  induction n as [|n IH].
  - unfold reduce_sum. simpl.
    replace (y + 0 * e - e / 2) with (y - e / 2) by lra. lra.
  - rewrite reduce_sum_S, Rmult_plus_distr_l, IH.
    replace (y + INR (S n) * e - e / 2) with ((y + INR n * e) + e / 2)
      by (rewrite S_INR; lra).
    replace (y + INR n * e - e / 2) with ((y + INR n * e) - e / 2) by lra.
    generalize (y + INR n * e) (e / 2) (sin (y - e / 2)). intros a h c.
    rewrite sin_minus, sin_plus. ring.
Qed.

(** Twice a sum of squared sines is the count minus the sum of the cosines
    of the doubled angles. *)
Lemma sin2_sum_cos (z : nat -> R) (n : nat) :
  2 * reduce_sum ((fun b => powerRZ (sin (z b)) 2) <$> seq 0 n)
  = INR n - reduce_sum ((fun b => cos (2 * z b)) <$> seq 0 n).
Proof.
  induction n as [|n IH].
  - unfold reduce_sum. simpl. lra.
  - rewrite !reduce_sum_S, S_INR, cos_2a_sin. simpl. simpl in IH. lra.
Qed.

Lemma sin_pos_fraction (k : R) (n : Z) :
  0 < k -> (k < IZR n) -> 0 < sin (k * PI / IZR n).
Proof.
  intros Hk Hn. pose proof PI_RGT_0 as Hpi.
  assert (0 < / IZR n) as Hinv by (apply Rinv_0_lt_compat; lra).
  assert (k * / IZR n < 1) as Hfrac.
  { apply (Rmult_lt_reg_r (IZR n)); [lra|].
    rewrite Rmult_assoc, Rinv_l by lra. lra. }
  assert (0 < k * / IZR n) as Hpos by (apply Rmult_lt_0_compat; lra).
  replace (k * PI / IZR n) with (PI * (k * / IZR n)) by (field; lra).
  apply sin_gt_0; nra.
Qed.

(** The angle of blade [b] at sample [i], split into base and step. *)
Lemma blade_angle (numBlades : Z) (phaseShift : R) (resolution : Z) (i b : nat) :
  numBlades <> 0%Z ->
  add (theta_of resolution i) (phase_of numBlades phaseShift b)
  = (theta_of resolution i + phaseShift) + INR b * (2 * PI / IZR numBlades).
Proof.
  intros HB. generalize (theta_of resolution i). intros t.
  unfold phase_of, turn_fraction. simpl.
  rewrite INR_IZR_INZ. assert (IZR numBlades <> 0) by (by apply not_0_IZR).
  field. done.
Qed.

Lemma sine_sum_zero (numBlades : Z) (phaseShift : R) (resolution : Z) (i : nat) :
  (2 <= numBlades)%Z ->
  reduce_sum (sinValue numBlades phaseShift resolution i <$> upto numBlades) = 0.
Proof.
  intros HB. set (x := theta_of resolution i + phaseShift).
  set (d := 2 * PI / IZR numBlades).
  assert (0 < IZR numBlades) as HB0 by (apply IZR_lt; lia).
  assert (INR (Z.to_nat numBlades) * d = 2 * PI) as Hturn.
  { unfold d. rewrite INR_IZR_INZ, Z2Nat.id by lia. field. lra. }
  unfold upto.
  rewrite (reduce_sum_ext _ (fun b => sin (x + INR b * d)))
    by (intros b; unfold sinValue; rewrite blade_angle by lia; done).
  pose proof (sin_sum_telescope x d (Z.to_nat numBlades)) as Htel.
  replace (x + INR (Z.to_nat numBlades) * d - d / 2)
    with ((x - d / 2) + 2 * PI) in Htel by lra.
  rewrite cos_plus, cos_2PI, sin_2PI in Htel.
  assert (0 < sin (d / 2)) as Hsin.
  { replace (d / 2) with (1 * PI / IZR numBlades) by (unfold d; field; lra).
    apply sin_pos_fraction; [lra|]. apply IZR_lt. lia. }
  nra.
Qed.

Lemma squared_sum_half (numBlades : Z) (phaseShift : R) (resolution : Z) (i : nat) :
  (3 <= numBlades)%Z ->
  reduce_sum (sin2Value numBlades phaseShift resolution i <$> upto numBlades)
  = IZR numBlades / 2.
Proof.
  intros HB. set (x := theta_of resolution i + phaseShift).
  set (d := 2 * PI / IZR numBlades).
  assert (0 < IZR numBlades) as HB0 by (apply IZR_lt; lia).
  assert (INR (Z.to_nat numBlades) * (2 * d) = 2 * PI + 2 * PI) as Hturn.
  { unfold d. rewrite INR_IZR_INZ, Z2Nat.id by lia. field. lra. }
  unfold upto.
  rewrite (reduce_sum_ext _ (fun b => powerRZ (sin (x + INR b * d)) 2))
    by (intros b; unfold sin2Value; rewrite blade_angle by lia; done).
  pose proof (sin2_sum_cos (fun b => x + INR b * d) (Z.to_nat numBlades)) as Hsq.
  rewrite (reduce_sum_ext (fun b => cos (2 * (x + INR b * d)))
                          (fun b => cos (2 * x + INR b * (2 * d)))) in Hsq
    by (intros b; f_equal; lra).
  pose proof (cos_sum_telescope (2 * x) (2 * d) (Z.to_nat numBlades)) as Htel.
  replace (2 * x + INR (Z.to_nat numBlades) * (2 * d) - 2 * d / 2)
    with (((2 * x - 2 * d / 2) + 2 * PI) + 2 * PI) in Htel by lra.
  rewrite !sin_plus, cos_2PI, sin_2PI in Htel.
  assert (0 < sin (2 * d / 2)) as Hsin.
  { replace (2 * d / 2) with (2 * PI / IZR numBlades) by (unfold d; field; lra).
    apply sin_pos_fraction; [lra|]. apply IZR_lt. lia. }
  rewrite INR_IZR_INZ, Z2Nat.id in Hsq by lia.
  nra.
Qed.

End Exact.

Section ExactClaims.
Local Open Scope R_scope.

(** C4: for [numBlades > 0] and [resolution > 0], whatever [phaseShift] and
    [subtractMean], both returned datasets have exactly [resolution]
    samples, and in each the angle grows strictly from one sample to any
    later one. *)
Theorem datasets_length_and_order
  (numBlades : Z) (phaseShift : R) (resolution : Z) (subtractMean : bool) :
  (0 < numBlades)%Z -> (0 < resolution)%Z ->
  exists d : Datasets R,
    generateData numBlades phaseShift resolution subtractMean = Some d /\
    Z.of_nat (length (sinData d)) = resolution /\
    Z.of_nat (length (sin2Data d)) = resolution /\
    (forall (i j : nat) (p q : DataPoint R), (i < j)%nat ->
       sinData d !! i = Some p -> sinData d !! j = Some q ->
       theta p < theta q) /\
    (forall (i j : nat) (p q : DataPoint R), (i < j)%nat ->
       sin2Data d !! i = Some p -> sin2Data d !! j = Some q ->
       theta p < theta q).
Proof.
  intros _ Hres.
  destruct (generateData numBlades phaseShift resolution subtractMean)
    as [d|] eqn:Hd; [|by rewrite generateData_eq in Hd].
  exists d. split; [done|].
  destruct (generateData_lengths _ _ _ _ _ Hd) as [-> ->].
  split; [lia|]. split; [lia|].
  assert (forall i j : nat, (i < j)%nat ->
            theta_of (num := R) resolution i < theta_of resolution j) as Hmono.
  { intros i j Hij. unfold theta_of, turn_fraction. simpl.
    pose proof PI_RGT_0 as Hpi.
    assert (0 < IZR resolution) as Hr by (apply IZR_lt; lia).
    assert (IZR (Z.of_nat i) < IZR (Z.of_nat j)) as Hlt by (apply IZR_lt; lia).
    apply Rmult_lt_compat_r; [by apply Rinv_0_lt_compat|].
    apply Rmult_lt_compat_l; lra. }
  split; intros i j p q Hij Hp Hq.
  - apply (sinData_sample_inv _ _ _ _ _ _ _ Hd) in Hp as [_ ->].
    apply (sinData_sample_inv _ _ _ _ _ _ _ Hd) in Hq as [_ ->].
    by apply Hmono.
  - apply (sin2Data_sample_inv _ _ _ _ _ _ _ Hd) in Hp as [_ ->].
    apply (sin2Data_sample_inv _ _ _ _ _ _ _ Hd) in Hq as [_ ->].
    by apply Hmono.
Qed.

(** C10: without mean subtraction, for [numBlades > 0] and
    [resolution > 0], every sample of the squared-sine dataset has all its
    per-blade values and its [sum] property non-negative. *)
Theorem squared_dataset_nonnegative
  (numBlades : Z) (phaseShift : R) (resolution : Z) :
  (0 < numBlades)%Z -> (0 < resolution)%Z ->
  exists d : Datasets R,
    generateData numBlades phaseShift resolution false = Some d /\
    forall (i : nat) (p : DataPoint R), sin2Data d !! i = Some p ->
      (forall (b : nat) (v : R), blade_value p b = Some v -> 0 <= v) /\
      (exists s : R, sum_value p = Some s /\ 0 <= s).
Proof.
  intros _ _.
  destruct (generateData numBlades phaseShift resolution false)
    as [d|] eqn:Hd; [|by rewrite generateData_eq in Hd].
  exists d. split; [done|]. intros i p Hp.
  apply (sin2Data_sample_inv _ _ _ _ _ _ _ Hd) in Hp as [Hi ->].
  assert (forall k b : nat, 0 <= sin2Value numBlades phaseShift resolution k b)
    as Hsq.
  { intros k b. unfold sin2Value. simpl. nra. }
  split.
  - intros b v. rewrite point_blade_value. case_decide; [|done].
    intros [= <-]. apply Hsq.
  - eexists. split; [apply point_sum_value|].
    unfold stored_sum, blade_total. by apply reduce_sum_nonneg.
Qed.

End ExactClaims.

(** ** Concrete runs *)

Section Runs.
Local Open Scope R_scope.

(** C1, as stated, fails: [generateData] returns datasets on inputs with
    [numBlades <= 0] or [resolution <= 0].  With no blade and no sample, and
    with three blades and no sample, it returns two empty datasets; with no
    blade and one sample it returns one point per dataset. *)
Lemma generateData_returns_on_invalid_input :
  generateData (num := R) 0 0 0 false = Some (mkDatasets [] []) /\
  generateData (num := R) 3 0 0 true = Some (mkDatasets [] []) /\
  (exists d : Datasets R,
      generateData (num := R) 0 0 1 false = Some d /\
      length (sinData d) = 1%nat /\ length (sin2Data d) = 1%nat).
Proof.
  split; [by rewrite generateData_eq|].
  split; [by rewrite generateData_eq|].
  eexists. split; [apply generateData_eq|]. done.
Qed.

(** C7, as stated, fails for one and for two blades: with [phaseShift = 0]
    and [resolution = 1], the sum of the squared values of sample 0 is 0,
    at distance 1/2 from [numBlades / 2] for one blade and at distance 1 for
    two. *)
Lemma squared_sum_not_half_below_three_blades :
  (exists (c : Collected) (s : R),
      firstPass (num := R) 1 0 1 = Some c /\
      sin2Sums c !! 0%nat = Some s /\ s = 0 /\ Rabs (s - 1 / 2) = 1 / 2) /\
  (exists (c : Collected) (s : R),
      firstPass (num := R) 2 0 1 = Some c /\
      sin2Sums c !! 0%nat = Some s /\ s = 0 /\ Rabs (s - 2 / 2) = 1).
Proof.
  assert (forall s : R, s = 0 -> Rabs (s - 1 / 2) = 1 / 2) as Hone.
  { intros s ->. rewrite Rabs_left; lra. }
  assert (forall s : R, s = 0 -> Rabs (s - 2 / 2) = 1) as Htwo.
  { intros s ->. rewrite Rabs_left; lra. }
  split.
  - eexists _, _. split; [apply firstPass_eq|]. split; [reflexivity|].
    assert (blade_total (sin2Value (num := R) 1 0 1) 1 0 = 0) as Hs.
    { unfold blade_total, reduce_sum, sin2Value, theta_of, phase_of, turn_fraction.
      simpl.
      change (Z.of_nat 0) with 0%Z.
      replace (2 * PI * 0 / 1 + (0 + 2 * PI * 0 / 1)) with 0 by lra.
      rewrite sin_0. lra. }
    split; [exact Hs|]. by apply Hone.
  - eexists _, _. split; [apply firstPass_eq|]. split; [reflexivity|].
    assert (blade_total (sin2Value (num := R) 2 0 1) 2 0 = 0) as Hs.
    { unfold blade_total, reduce_sum, sin2Value, theta_of, phase_of, turn_fraction.
      simpl.
      change (Z.of_nat 0) with 0%Z. change (Z.of_nat 1) with 1%Z.
      replace (2 * PI * 0 / 1 + (0 + 2 * PI * 0 / 2)) with 0 by lra.
      replace (2 * PI * 0 / 1 + (0 + 2 * PI * 1 / 2)) with PI by lra.
      rewrite sin_0, sin_PI. lra. }
    split; [exact Hs|]. by apply Htwo.
Qed.

(** No blade, two samples, mean subtraction on: two points per dataset,
    none with a per-blade value. *)
Lemma generateData_validates_nothing_witness :
  (0 <= 0 \/ 2 <= 0)%Z /\
  exists d : Datasets R,
    generateData (num := R) 0 0 2 true = Some d /\
    Z.of_nat (length (sinData d)) = 2%Z /\
    forall (p : DataPoint R) (b : nat),
      p ∈ sinData d \/ p ∈ sin2Data d -> blade_value p b = None.
Proof.
  assert (0 <= 0 \/ 2 <= 0)%Z as Hin by (left; lia).
  split; [exact Hin|].
  destruct (generateData_validates_nothing (num := R) 0 0 2 true Hin)
    as (d & Hd & Hlen & _ & _ & Hblades).
  exists d. split; [exact Hd|]. split; [exact Hlen|].
  apply Hblades. lia.
Defined.

(** Three blades, four samples: sample 1, blade 2. *)
Lemma sample_angle_and_values_witness :
  ((0 < 3)%Z /\ (0 < 4)%Z /\ (Z.of_nat 1 < 4)%Z /\ (Z.of_nat 2 < 3)%Z) /\
  exists c : Collected,
    firstPass (num := R) 3 0 4 = Some c /\
    cell (bladeDataSin c) 2 1 = Some (sin (2 * PI * 1 / 4 + (0 + 2 * PI * 2 / 3))).
Proof.
  assert (0 < 3)%Z as H1 by lia. assert (0 < 4)%Z as H2 by lia.
  assert (Z.of_nat 1 < 4)%Z as H3 by lia. assert (Z.of_nat 2 < 3)%Z as H4 by lia.
  split; [done|].
  destruct (sample_angle_and_values (num := R) 3 0 4 false 1 2 H1 H2 H3 H4)
    as [(c & Hc & Hsin & _) _].
  exists c. split; [exact Hc|exact Hsin].
Defined.

Lemma sum_of_sample_witness :
  ((0 < 3)%Z /\ (0 < 4)%Z) /\
  exists d : Datasets R,
    generateData (num := R) 3 0 4 false = Some d /\
    forall (i : nat) (p : DataPoint R), sinData d !! i = Some p ->
      exists vs : list R,
        mapM (blade_value p) (upto 3) = Some vs /\
        sum_value p = Some (reduce_sum vs).
Proof.
  assert (0 < 3)%Z as H1 by lia. assert (0 < 4)%Z as H2 by lia.
  split; [done|].
  destruct (sum_of_sample (num := R) 3 0 4 false H1 H2) as (d & Hd & Hsin & _).
  exists d. split; [exact Hd|exact Hsin].
Defined.

Lemma datasets_length_and_order_witness :
  ((0 < 3)%Z /\ (0 < 4)%Z) /\
  exists d : Datasets R,
    generateData (num := R) 3 0 4 true = Some d /\
    Z.of_nat (length (sinData d)) = 4%Z /\
    Z.of_nat (length (sin2Data d)) = 4%Z.
Proof.
  assert (0 < 3)%Z as H1 by lia. assert (0 < 4)%Z as H2 by lia.
  split; [done|].
  destruct (datasets_length_and_order 3 0 4 true H1 H2)
    as (d & Hd & Hlen & Hlen2 & _).
  exists d. split; [exact Hd|]. split; [exact Hlen|exact Hlen2].
Defined.

Lemma stored_blade_value_witness :
  ((0 < 3)%Z /\ (0 < 4)%Z /\ (Z.of_nat 1 < 4)%Z /\ (Z.of_nat 2 < 3)%Z) /\
  exists (d : Datasets R) (p : DataPoint R),
    generateData (num := R) 3 0 4 true = Some d /\
    sinData d !! 1%nat = Some p /\
    blade_value p 2
    = Some (sinValue 3 0 4 1 2
            - reduce_sum ((fun k => sinValue 3 0 4 k 2) <$> upto 4) / 4).
Proof.
  assert (0 < 3)%Z as H1 by lia. assert (0 < 4)%Z as H2 by lia.
  assert (Z.of_nat 1 < 4)%Z as H3 by lia. assert (Z.of_nat 2 < 3)%Z as H4 by lia.
  split; [done|].
  destruct (stored_blade_value (num := R) 3 0 4 true 1 2 H1 H2 H3 H4)
    as (d & p & _ & Hd & Hp & _ & Hv & _).
  exists d, p. split; [exact Hd|]. split; [exact Hp|exact Hv].
Defined.

Lemma squared_dataset_nonnegative_witness :
  ((0 < 3)%Z /\ (0 < 4)%Z) /\
  exists d : Datasets R,
    generateData (num := R) 3 0 4 false = Some d /\
    forall (i : nat) (p : DataPoint R), sin2Data d !! i = Some p ->
      exists s : R, sum_value p = Some s /\ 0 <= s.
Proof.
  assert (0 < 3)%Z as H1 by lia. assert (0 < 4)%Z as H2 by lia.
  split; [done|].
  destruct (squared_dataset_nonnegative 3 0 4 H1 H2) as (d & Hd & Hall).
  exists d. split; [exact Hd|]. intros i p Hp. exact (proj2 (Hall i p Hp)).
Defined.

End Runs.

(** ** Further properties, for any arithmetic *)

Lemma blade_props_is_Some {num : Type} (g : nat -> num) (n : nat) (k : string) :
  is_Some (blade_props g n !! k) <-> exists b : nat, (b < n)%nat /\ k = blade_key b.
Proof.
  induction n as [|n IH].
  - unfold blade_props. simpl. rewrite lookup_empty. split.
    + intros [x Hx]. done.
    + intros (b & Hb & _). lia.
  - rewrite blade_props_S, lookup_insert_is_Some, IH. split.
    + intros [ <- | [_ (b & Hb & ->)] ]; [exists n|exists b]; split; done || lia.
    + intros (b & Hb & ->). destruct (decide (b = n)) as [->|Hne]; [by left|].
      right. split; [intros Hk; by apply blade_key_inj in Hk|].
      exists b. split; [lia|done].
Qed.

Lemma elem_of_line_keys (numBlades : Z) (k : string) :
  k ∈ line_keys numBlades
  <-> k = sum_key \/ exists b : nat, (b < Z.to_nat numBlades)%nat /\ k = blade_key b.
Proof.
  unfold line_keys. rewrite elem_of_app, list_elem_of_fmap, list_elem_of_singleton.
  split.
  - intros [(b & -> & Hb) | ->]; [right|by left].
    apply list_elem_of_lookup in Hb as [j Hj].
    apply upto_lookup_inv in Hj as [-> Hj]. by exists j.
  - intros [-> | (b & Hb & ->)]; [by right|left].
    exists b. split; [done|]. apply list_elem_of_lookup. exists b.
    by apply upto_lookup.
Qed.

Lemma point_props_is_Some {num : Type} `{!JSNumber num}
  (numBlades resolution : Z) (subtractMean : bool) (f : nat -> nat -> num)
  (i : nat) (k : string) :
  is_Some (props (point_of numBlades resolution subtractMean f i) !! k)
  <-> k ∈ line_keys numBlades.
Proof.
  unfold point_of. simpl.
  rewrite lookup_insert_is_Some, blade_props_is_Some, elem_of_line_keys.
  split.
  - intros [ <- | [_ Hb] ]; [by left|by right].
  - intros [-> | (b & Hb & ->)]; [by left|right].
    split; [intros Hk; symmetry in Hk; by apply blade_key_not_sum in Hk|].
    by exists b.
Qed.

Section GenericCoverage.
Context {num : Type} `{!JSNumber num}.

(** X1: the first pass never reads a missing slot, whatever the input, and it
    leaves [numBlades] rows of [resolution] values in each of the two tables
    and [resolution] entries in each of the two arrays of sums (none where
    the count is not positive). *)
Theorem firstPass_shape (numBlades : Z) (phaseShift : num) (resolution : Z) :
  exists c : Collected,
    firstPass numBlades phaseShift resolution = Some c /\
    length (bladeDataSin c) = Z.to_nat numBlades /\
    length (bladeDataSin2 c) = Z.to_nat numBlades /\
    Forall (fun row => length row = Z.to_nat resolution) (bladeDataSin c) /\
    Forall (fun row => length row = Z.to_nat resolution) (bladeDataSin2 c) /\
    length (sinSums c) = Z.to_nat resolution /\
    length (sin2Sums c) = Z.to_nat resolution.
Proof.
  eexists. split; [apply firstPass_eq|]. simpl.
  unfold running. rewrite !length_fmap, !length_seq, upto_length.
  repeat split; try done.
  - apply Forall_fmap, Forall_forall. intros b _. simpl.
    unfold raw_row. by rewrite length_fmap, upto_length.
  - apply Forall_fmap, Forall_forall. intros b _. simpl.
    unfold raw_row. by rewrite length_fmap, upto_length.
Qed.

(** X2: whatever the input, the numeric properties of every point of both
    datasets are exactly the [dataKey]s of the lines the chart draws:
    [blade0] to [blade(numBlades-1)] and [sum].  No line reads a missing
    property and no property is left undrawn. *)
Theorem points_hold_the_line_keys
  (numBlades : Z) (phaseShift : num) (resolution : Z) (subtractMean : bool) :
  exists d : Datasets num,
    generateData numBlades phaseShift resolution subtractMean = Some d /\
    forall (p : DataPoint num) (k : string),
      p ∈ sinData d \/ p ∈ sin2Data d ->
      (is_Some (props p !! k) <-> k ∈ line_keys numBlades).
Proof.
  eexists. split; [apply generateData_eq|]. simpl.
  intros p k [Hp|Hp]; apply list_elem_of_fmap in Hp as (i & -> & _);
    apply point_props_is_Some.
Qed.

(** X3: the two datasets run in parallel: they have the same length, and the
    points at the same index carry the same angle and the same label. *)
Theorem datasets_are_parallel
  (numBlades : Z) (phaseShift : num) (resolution : Z) (subtractMean : bool) :
  exists d : Datasets num,
    generateData numBlades phaseShift resolution subtractMean = Some d /\
    length (sinData d) = length (sin2Data d) /\
    forall (i : nat) (p p2 : DataPoint num),
      sinData d !! i = Some p -> sin2Data d !! i = Some p2 ->
      theta p = theta p2 /\ thetaLabel p = thetaLabel p2.
Proof.
  destruct (generateData numBlades phaseShift resolution subtractMean)
    as [d|] eqn:Hd; [|by rewrite generateData_eq in Hd].
  exists d. split; [done|].
  destruct (generateData_lengths _ _ _ _ _ Hd) as [-> ->]. split; [done|].
  intros i p p2 Hp Hp2.
  apply (sinData_sample_inv _ _ _ _ _ _ _ Hd) in Hp as [_ ->].
  apply (sin2Data_sample_inv _ _ _ _ _ _ _ Hd) in Hp2 as [_ ->].
  done.
Qed.

(** X4: in every point of both datasets the label is the one of the point's
    own angle, [(theta / Math.PI).toFixed(2) + 'π'], so the label the tooltip
    computes from the angle is ["θ = "] followed by the stored label. *)
Theorem tooltip_label_is_stored_label
  (numBlades : Z) (phaseShift : num) (resolution : Z) (subtractMean : bool) :
  exists d : Datasets num,
    generateData numBlades phaseShift resolution subtractMean = Some d /\
    forall p : DataPoint num,
      p ∈ sinData d \/ p ∈ sin2Data d ->
      thetaLabel p = toFixed (div (theta p) Math_PI) 2 +:+ "π" /\
      labelFormatter (theta p) = "θ = " +:+ thetaLabel p.
Proof.
  eexists. split; [apply generateData_eq|]. simpl.
  intros p [Hp|Hp]; apply list_elem_of_fmap in Hp as (i & -> & _); done.
Qed.

End GenericCoverage.

(** X5: the stroke of a blade is always an entry of the palette (the index
    [b % 8] is in range), blades 8 apart share it, and any two of the first
    eight blades, the most the slider allows, get different colours. *)
Theorem blade_stroke_palette (b : nat) :
  is_Some (blade_stroke b) /\
  blade_stroke (b + 8) = blade_stroke b /\
  (forall b' : nat, (b < 8)%nat -> (b' < 8)%nat -> b <> b' ->
     blade_stroke b <> blade_stroke b').
Proof.
  assert (b mod 8 < 8)%nat as Hlt by (apply Nat.mod_upper_bound; lia).
  unfold blade_stroke. change (length BLADE_COLORS) with 8%nat.
  split; [|split].
  - apply lookup_lt_is_Some. simpl. lia.
  - f_equal. replace (b + 8)%nat with (b + 1 * 8)%nat by lia.
    apply Nat.Div0.mod_add.
  - intros b' Hb Hb' Hne. rewrite !Nat.mod_small by lia.
    do 8 (destruct b as [|b]; [do 8 (destruct b' as [|b']; [done|]); lia|]).
    lia.
Qed.

(** ** Further properties in exact arithmetic *)

Section ExactSums.
Local Open Scope R_scope.

Lemma reduce_sum_minus (g h : nat -> R) (n : nat) :
  reduce_sum ((fun k => g k - h k) <$> seq 0 n)
  = reduce_sum (g <$> seq 0 n) - reduce_sum (h <$> seq 0 n).
Proof.
  induction n as [|n IH].
  - unfold reduce_sum. simpl. lra.
  - rewrite !reduce_sum_S, IH. lra.
Qed.

Lemma reduce_sum_abs_le (g : nat -> R) (n : nat) :
  (forall k, Rabs (g k) <= 1) -> Rabs (reduce_sum (g <$> seq 0 n)) <= INR n.
Proof.
  intros Hg. induction n as [|n IH].
  - unfold reduce_sum. simpl. rewrite Rabs_R0. lra.
  - rewrite reduce_sum_S, S_INR.
    eapply Rle_trans; [apply Rabs_triang|]. specialize (Hg n). lra.
Qed.

Lemma reduce_sum_le (g : nat -> R) (n : nat) :
  (forall k, g k <= 1) -> reduce_sum (g <$> seq 0 n) <= INR n.
Proof.
  intros Hg. induction n as [|n IH].
  - unfold reduce_sum. simpl. lra.
  - rewrite reduce_sum_S, S_INR. specialize (Hg n). lra.
Qed.

Lemma INR_to_nat (n : Z) : (0 <= n)%Z -> INR (Z.to_nat n) = IZR n.
Proof. intros Hn. by rewrite INR_IZR_INZ, Z2Nat.id. Qed.

End ExactSums.

Section ExactCoverage.
Local Open Scope R_scope.

Lemma theta_in_turn (resolution : Z) (i : nat) :
  (Z.of_nat i < resolution)%Z ->
  0 <= theta_of (num := R) resolution i < 2 * PI.
Proof.
  intros Hi. unfold theta_of, turn_fraction. simpl.
  pose proof PI_RGT_0 as Hpi.
  assert (0 <= IZR (Z.of_nat i)) as Hi0 by (apply IZR_le; lia).
  assert (IZR (Z.of_nat i) < IZR resolution) as Hlt by (by apply IZR_lt).
  assert (0 < / IZR resolution) as Hinv by (apply Rinv_0_lt_compat; lra).
  set (q := IZR (Z.of_nat i) * / IZR resolution).
  assert (0 <= q) as Hq0 by (apply Rmult_le_pos; lra).
  assert (q < 1) as Hq1.
  { apply (Rmult_lt_reg_r (IZR resolution)); [lra|].
    unfold q. rewrite Rmult_assoc, Rinv_l by lra. lra. }
  replace (2 * PI * IZR (Z.of_nat i) / IZR resolution) with (2 * PI * q)
    by (unfold q; field; lra).
  split; nra.
Qed.

(** X6: for [resolution > 0] every sample angle of both datasets lies in
    [0, 2*pi), inside the domain [0, 2*pi] of the horizontal axis. *)
Theorem sample_angles_in_one_turn
  (numBlades : Z) (phaseShift : R) (resolution : Z) (subtractMean : bool) :
  (0 < resolution)%Z ->
  exists d : Datasets R,
    generateData numBlades phaseShift resolution subtractMean = Some d /\
    length (sinData d) = Z.to_nat resolution /\
    forall p : DataPoint R,
      p ∈ sinData d \/ p ∈ sin2Data d -> 0 <= theta p < 2 * PI.
Proof.
  intros _. eexists. split; [apply generateData_eq|]. simpl.
  split; [by rewrite length_fmap, upto_length|].
  intros p [Hp|Hp]; apply list_elem_of_fmap in Hp as (i & -> & Hi);
    apply list_elem_of_lookup in Hi as [j Hj];
    apply upto_lookup_inv in Hj as [-> Hj];
    apply theta_in_turn; lia.
Qed.

End ExactCoverage.

Section ExactSeries.
Local Open Scope R_scope.

(** X8: without mean subtraction, whatever the input, every per-blade sine
    value lies in [-1, 1] and every per-blade squared value is at most 1; the
    [sum] of a sine point is at most the number of blades in magnitude, and
    the [sum] of a squared point is at most the number of blades. *)
Theorem values_within_unit_bounds
  (numBlades : Z) (phaseShift : R) (resolution : Z) :
  exists d : Datasets R,
    generateData numBlades phaseShift resolution false = Some d /\
    (forall (i : nat) (p : DataPoint R), sinData d !! i = Some p ->
       (forall (b : nat) (v : R), blade_value p b = Some v -> -1 <= v <= 1) /\
       (exists s : R, sum_value p = Some s /\
                      Rabs s <= IZR (Z.max numBlades 0))) /\
    (forall (i : nat) (p : DataPoint R), sin2Data d !! i = Some p ->
       (forall (b : nat) (v : R), blade_value p b = Some v -> v <= 1) /\
       (exists s : R, sum_value p = Some s /\ s <= IZR (Z.max numBlades 0))).
Proof.
  destruct (generateData numBlades phaseShift resolution false)
    as [d|] eqn:Hd; [|by rewrite generateData_eq in Hd].
  exists d. split; [done|].
  assert (INR (Z.to_nat numBlades) = IZR (Z.max numBlades 0)) as Hcount.
  { rewrite INR_IZR_INZ. f_equal. lia. }
  assert (forall k b : nat,
             -1 <= sinValue numBlades phaseShift resolution k b <= 1) as Hsin.
  { intros k b. unfold sinValue. simpl. apply SIN_bound. }
  assert (forall k b : nat, sin2Value numBlades phaseShift resolution k b <= 1)
    as Hsq.
  { intros k b. specialize (Hsin k b). revert Hsin.
    change (sin2Value numBlades phaseShift resolution k b)
      with (powerRZ (sinValue numBlades phaseShift resolution k b) 2).
    generalize (sinValue numBlades phaseShift resolution k b).
    intros s Hs. simpl. nra. }
  split; intros i p Hp.
  - apply (sinData_sample_inv _ _ _ _ _ _ _ Hd) in Hp as [Hi ->]. split.
    + intros b v. rewrite point_blade_value. case_decide; [|done].
      intros [= <-]. apply Hsin.
    + eexists. split; [apply point_sum_value|].
      unfold stored_sum, blade_total. rewrite <- Hcount.
      apply reduce_sum_abs_le. intros b. apply Rabs_le, Hsin.
  - apply (sin2Data_sample_inv _ _ _ _ _ _ _ Hd) in Hp as [Hi ->]. split.
    + intros b v. rewrite point_blade_value. case_decide; [|done].
      intros [= <-]. apply Hsq.
    + eexists. split; [apply point_sum_value|].
      unfold stored_sum, blade_total. rewrite <- Hcount.
      by apply reduce_sum_le.
Qed.

End ExactSeries.

(** ** Further concrete runs *)

Section MoreRuns.
Local Open Scope R_scope.

(** Blades 2 and 5 get different colours. *)
Lemma blade_stroke_palette_witness :
  ((2 < 8)%nat /\ (5 < 8)%nat /\ 2%nat <> 5%nat) /\
  blade_stroke 2 <> blade_stroke 5.
Proof.
  assert (2 < 8)%nat as H1 by lia. assert (5 < 8)%nat as H2 by lia.
  assert (2%nat <> 5%nat) as H3 by lia.
  split; [done|].
  exact (proj2 (proj2 (blade_stroke_palette 2)) 5%nat H1 H2 H3).
Defined.

Lemma sample_angles_in_one_turn_witness :
  (0 < 4)%Z /\
  exists d : Datasets R,
    generateData (num := R) 3 0 4 true = Some d /\
    length (sinData d) = 4%nat /\
    forall p : DataPoint R,
      p ∈ sinData d \/ p ∈ sin2Data d -> 0 <= theta p < 2 * PI.
Proof.
  assert (0 < 4)%Z as H1 by lia. split; [done|].
  exact (sample_angles_in_one_turn 3 0 4 true H1).
Defined.

End MoreRuns.

(** ** The earlier version and the horizontal axis *)

Section GenericAxis.
Context {num : Type} `{!JSNumber num}.

(** X18: the earlier [generateData], whatever the input, returns two
    datasets of [resolution] points each (none when [resolution <= 0]); the
    properties of every point are exactly the [dataKey]s of the lines, and
    its [sum] is the sum, in blade order, of its per-blade values. *)
Theorem generateData_old_points
  (numBlades : Z) (phaseShift : num) (resolution : Z) :
  let d := generateData_old numBlades phaseShift resolution in
  length (sinData d) = Z.to_nat resolution /\
  length (sin2Data d) = Z.to_nat resolution /\
  forall p : DataPoint num,
    p ∈ sinData d \/ p ∈ sin2Data d ->
    (forall k : string, is_Some (props p !! k) <-> k ∈ line_keys numBlades) /\
    (exists vs : list num,
        mapM (blade_value p) (upto numBlades) = Some vs /\
        sum_value p = Some (reduce_sum vs)).
Proof.
  simpl. rewrite generateData_old_eq. simpl.
  rewrite !length_fmap, upto_length. split; [done|]. split; [done|].
  intros p [Hp|Hp]; apply list_elem_of_fmap in Hp as (i & -> & _);
    (split; [intros k; apply point_props_is_Some|]);
    (eexists; split; [apply mapM_blade_values|by rewrite point_sum_value]).
Qed.

(** X19: the sample angles and their labels depend on [resolution] alone:
    two runs with the same [resolution] give, point by point, the same
    angles and labels, whatever the blade counts, the phase shifts and the
    settings of [subtractMean]. *)
Theorem axis_depends_on_resolution_only
  (numBlades numBlades' : Z) (phaseShift phaseShift' : num) (resolution : Z)
  (subtractMean subtractMean' : bool) :
  exists d d' : Datasets num,
    generateData numBlades phaseShift resolution subtractMean = Some d /\
    generateData numBlades' phaseShift' resolution subtractMean' = Some d' /\
    (fun p => (theta p, thetaLabel p)) <$> sinData d
    = (fun p => (theta p, thetaLabel p)) <$> sinData d' /\
    (fun p => (theta p, thetaLabel p)) <$> sin2Data d
    = (fun p => (theta p, thetaLabel p)) <$> sin2Data d'.
Proof.
  eexists _, _. split; [apply generateData_eq|]. split; [apply generateData_eq|].
  simpl. rewrite <- !list_fmap_compose. done.
Qed.

End GenericAxis.

(** ** The sums under rounding

    The code runs on doubles.  A run in binary64 is a run of the embedding at
    [Rounded a], where [a] rounds every exact result to the nearest double
    and takes [Math.sin] and [Math.pow] from the engine; such an [a] is
    [binary64_accurate] as long as nothing overflows. *)

Section RoundingBasics.
Local Open Scope R_scope.

Lemma unit_roundoff_bounds : 0 < unit_roundoff <= 2 / 10 ^ 16.
Proof. unfold unit_roundoff. split; lra. Qed.

Lemma underflow_unit_bounds : 0 < underflow_unit <= unit_roundoff / 1000.
Proof. unfold underflow_unit, unit_roundoff. split; lra. Qed.

Lemma Rabs_le_between (a b : R) : Rabs a <= b -> - b <= a <= b.
Proof.
  intros Hab. pose proof (Rle_abs a). pose proof (Rle_abs (- a)) as Hn.
  rewrite Rabs_Ropp in Hn. lra.
Qed.

Lemma rounds_within (x exact M : R) :
  rounds x exact -> - M <= exact <= M ->
  - (unit_roundoff * M + underflow_unit) <= x - exact
  <= unit_roundoff * M + underflow_unit.
Proof.
  intros Hx HM. unfold rounds in Hx.
  pose proof unit_roundoff_bounds as [Hu _].
  assert (Rabs exact <= M) as Habs by (apply Rabs_le; lra).
  assert (Rabs (x - exact) <= unit_roundoff * M + underflow_unit) as Hle by nra.
  apply Rabs_le_between in Hle. lra.
Qed.

Lemma Rabs_sin_le (z : R) : Rabs (sin z) <= Rabs z.
Proof.
  assert (forall t, 0 <= t -> Rabs (sin t) <= t) as Hpos.
  { intros t Ht. destruct (Rle_lt_dec 1 t) as [H1|H1].
    - pose proof (SIN_bound t) as Hb. apply Rabs_le. lra.
    - destruct (Req_dec t 0) as [->|Hne].
      + rewrite sin_0, Rabs_R0. lra.
      + assert (0 < t) as Ht' by lra.
        pose proof (sin_lt_x t Ht'). pose proof PI2_1 as Hpi.
        assert (0 < sin t) by (apply sin_gt_0; lra).
        rewrite Rabs_right; lra. }
  destruct (Rle_lt_dec 0 z) as [Hz|Hz].
  - rewrite (Rabs_right z) by lra. by apply Hpos.
  - rewrite <- (Ropp_involutive z) at 1. rewrite sin_neg, Rabs_Ropp.
    rewrite (Rabs_left z) by lra. apply Hpos. lra.
Qed.

Lemma sin_lipschitz (x y : R) : Rabs (sin x - sin y) <= Rabs (x - y).
Proof.
  rewrite form4, !Rabs_mult.
  pose proof (COS_bound ((x + y) / 2)) as Hc.
  assert (Rabs (cos ((x + y) / 2)) <= 1) as Hc' by (apply Rabs_le; lra).
  pose proof (Rabs_sin_le ((x - y) / 2)) as Hs.
  replace (Rabs ((x - y) / 2)) with (Rabs (x - y) / 2) in Hs.
  2:{ unfold Rdiv. rewrite Rabs_mult. f_equal. rewrite Rabs_right; lra. }
  rewrite (Rabs_right 2) by lra.
  pose proof (Rabs_pos (sin ((x - y) / 2))). pose proof (Rabs_pos (cos ((x + y) / 2))).
  nra.
Qed.

End RoundingBasics.

Section ErrorAnalysis.
Local Open Scope R_scope.
Variable a : Rounding.
Hypothesis Ha : binary64_accurate a.

#[local] Abbreviation u := unit_roundoff.
#[local] Abbreviation eta := underflow_unit.

Lemma acc_pi : - (2 * u) <= r_pi a - PI <= 2 * u.
Proof. destruct Ha as (Hpi & _). by apply Rabs_le_between. Qed.

Lemma acc_add (x y M : R) :
  - M <= x + y <= M -> M <= 2 ^ 64 ->
  - (u * M + eta) <= r_add a x y - (x + y) <= u * M + eta.
Proof.
  intros HM Hbig. destruct Ha as (_ & Hadd & _).
  apply rounds_within; [|done]. apply Hadd. apply Rabs_le. lra.
Qed.

Lemma acc_mul (x y M : R) :
  - M <= x * y <= M -> M <= 2 ^ 64 ->
  - (u * M + eta) <= r_mul a x y - x * y <= u * M + eta.
Proof.
  intros HM Hbig. destruct Ha as (_ & _ & _ & Hmul & _).
  apply rounds_within; [|done]. apply Hmul. apply Rabs_le. lra.
Qed.

Lemma acc_div (x y M : R) :
  y <> 0 -> - M <= x / y <= M -> M <= 2 ^ 64 ->
  - (u * M + eta) <= r_div a x y - x / y <= u * M + eta.
Proof.
  intros Hy HM Hbig. destruct Ha as (_ & _ & _ & _ & Hdiv & _).
  apply rounds_within; [|done]. apply Hdiv; [done|]. apply Rabs_le. lra.
Qed.

Lemma acc_sin (x : R) :
  - 128 <= x <= 128 -> - (2 * u) <= r_sin a x - sin x <= 2 * u.
Proof.
  intros Hx. destruct Ha as (_ & _ & _ & _ & _ & Hsin & _).
  apply Rabs_le_between, Hsin. apply Rabs_le. lra.
Qed.

Lemma acc_pow (x : R) :
  - 2 <= x <= 2 ->
  - (2 * u * (x * x) + eta) <= r_pow a x 2 - x * x <= 2 * u * (x * x) + eta.
Proof.
  intros Hx. destruct Ha as (_ & _ & _ & _ & _ & _ & Hpow).
  apply Rabs_le_between, Hpow. apply Rabs_le. lra.
Qed.

(** [(2 * Math.PI * k) / n], computed with rounding, against the exact
    fraction of a turn. *)
Lemma turn_fraction_close (k : nat) (n : Z) :
  (Z.of_nat k < n)%Z -> (n <= 2 ^ 53)%Z ->
  - (30 * u) <= turn_fraction (JSNumber0 := Rounded a) k n
                - 2 * PI * IZR (Z.of_nat k) / IZR n <= 30 * u.
Proof.
  intros Hk Hn. unfold turn_fraction. simpl.
  pose proof unit_roundoff_bounds as [Hu0 Hu1].
  pose proof underflow_unit_bounds as [He0 He1].
  pose proof acc_pi as Hpi. pose proof PI_RGT_0 as Hpi0. pose proof PI_4 as Hpi4.
  set (kn := IZR (Z.of_nat k)). set (nn := IZR n).
  assert (0 <= kn) as Hkn0 by (apply IZR_le; lia).
  assert (kn + 1 <= nn) as Hkn1.
  { unfold kn, nn. rewrite <- plus_IZR. apply IZR_le. lia. }
  assert (nn <= 9007199254740992) as Hnn by (apply IZR_le; lia).
  set (w := / nn).
  assert (0 < w) as Hw0 by (apply Rinv_0_lt_compat; lra).
  assert (nn * w = 1) as Hnw by (unfold w; field; lra).
  assert (w <= 1) as Hw1 by nra.
  set (q := kn * w).
  assert (0 <= q) as Hq0 by (apply Rmult_le_pos; lra).
  assert (q <= 1) as Hq1 by (unfold q; nra).
  set (p := r_pi a) in *.
  set (t1 := r_mul a 2 p).
  assert (- (u * 8.1 + eta) <= t1 - 2 * p <= u * 8.1 + eta) as H1
    by (apply acc_mul; lra).
  set (t2 := r_mul a t1 kn).
  assert (- (u * (8.2 * kn) + eta) <= t2 - t1 * kn <= u * (8.2 * kn) + eta) as H2
    by (apply acc_mul; nra).
  set (e2 := t2 - t1 * kn) in *.
  assert (- (8.2 * u + eta) <= e2 * w <= 8.2 * u + eta) as H2w.
  { assert (e2 * w <= (u * (8.2 * kn) + eta) * w)
      by (apply Rmult_le_compat_r; lra).
    assert (- (u * (8.2 * kn) + eta) * w <= e2 * w)
      by (apply Rmult_le_compat_r; lra).
    assert ((u * (8.2 * kn) + eta) * w = 8.2 * u * q + eta * w) as Heq
      by (unfold q; ring).
    nra. }
  assert (- 8.2 <= t1 * q <= 8.2) as H1q by nra.
  assert (t2 / nn = t1 * q + e2 * w) as Hexact
    by (unfold e2, q, w; field; lra).
  set (t3 := r_div a t2 nn).
  assert (- (u * 8.4 + eta) <= t3 - t2 / nn <= u * 8.4 + eta) as H3
    by (apply acc_div; lra).
  replace (2 * PI * kn / nn) with (2 * PI * q) by (unfold q, w; field; lra).
  assert (- (12.1 * u + eta) <= (t1 - 2 * PI) * q <= 12.1 * u + eta) as Hpq by nra.
  nra.
Qed.

Lemma exact_turn_bounds (k : nat) (n : Z) :
  (Z.of_nat k < n)%Z -> 0 <= 2 * PI * IZR (Z.of_nat k) / IZR n <= 8.
Proof.
  intros Hk. pose proof PI_RGT_0 as Hpi0. pose proof PI_4 as Hpi4.
  set (kn := IZR (Z.of_nat k)). set (nn := IZR n).
  assert (0 <= kn) as Hkn0 by (apply IZR_le; lia).
  assert (kn + 1 <= nn) as Hkn1.
  { unfold kn, nn. rewrite <- plus_IZR. apply IZR_le. lia. }
  set (w := / nn).
  assert (0 < w) as Hw0 by (apply Rinv_0_lt_compat; lra).
  assert (nn * w = 1) as Hnw by (unfold w; field; lra).
  set (q := kn * w).
  assert (0 <= q) as Hq0 by (apply Rmult_le_pos; lra).
  assert (q <= 1) as Hq1 by (unfold q; nra).
  replace (2 * PI * kn / nn) with (2 * PI * q) by (unfold q, w; field; lra).
  nra.
Qed.

(** The argument of [Math.sin] for blade [b] at sample [i]: the rounded one
    is within [300 * u] of the exact one, and within the range where the
    sine is accurate. *)
Lemma argument_close (numBlades : Z) (phaseShift : R) (resolution : Z) (i b : nat) :
  (Z.of_nat b < numBlades)%Z -> (numBlades <= 2 ^ 53)%Z ->
  (Z.of_nat i < resolution)%Z -> (resolution <= 2 ^ 53)%Z ->
  - 100 <= phaseShift <= 100 ->
  let x := add (JSNumber := Rounded a)
               (theta_of (JSNumber0 := Rounded a) resolution i)
               (phase_of (JSNumber0 := Rounded a) numBlades phaseShift b) in
  let y := add (JSNumber := RealNumber)
               (theta_of (JSNumber0 := RealNumber) resolution i)
               (phase_of (JSNumber0 := RealNumber) numBlades phaseShift b) in
  - (300 * u) <= x - y <= 300 * u /\ - 128 <= x <= 128.
Proof.
  intros Hb HB Hi Hres Hphi. cbv zeta. unfold theta_of, phase_of.
  change (add (JSNumber := Rounded a)) with (r_add a).
  change (add (JSNumber := RealNumber)) with Rplus.
  pose proof unit_roundoff_bounds as [Hu0 Hu1].
  pose proof underflow_unit_bounds as [He0 He1].
  pose proof (turn_fraction_close i resolution Hi Hres) as Ht.
  pose proof (turn_fraction_close b numBlades Hb HB) as Hq.
  pose proof (exact_turn_bounds i resolution Hi) as Ht'.
  pose proof (exact_turn_bounds b numBlades Hb) as Hq'.
  change (turn_fraction (JSNumber0 := RealNumber) i resolution)
    with (2 * PI * IZR (Z.of_nat i) / IZR resolution).
  change (turn_fraction (JSNumber0 := RealNumber) b numBlades)
    with (2 * PI * IZR (Z.of_nat b) / IZR numBlades).
  set (t := turn_fraction (JSNumber0 := Rounded a) i resolution) in *.
  set (q := turn_fraction (JSNumber0 := Rounded a) b numBlades) in *.
  set (t' := 2 * PI * IZR (Z.of_nat i) / IZR resolution) in *.
  set (q' := 2 * PI * IZR (Z.of_nat b) / IZR numBlades) in *.
  set (p := r_add a phaseShift q).
  assert (- (u * 109 + eta) <= p - (phaseShift + q) <= u * 109 + eta) as Hp
    by (apply acc_add; lra).
  assert (- (u * 118 + eta) <= r_add a t p - (t + p) <= u * 118 + eta) as Hx
    by (apply acc_add; lra).
  split; lra.
Qed.

Lemma sinValue_close (numBlades : Z) (phaseShift : R) (resolution : Z) (i b : nat) :
  (Z.of_nat b < numBlades)%Z -> (numBlades <= 2 ^ 53)%Z ->
  (Z.of_nat i < resolution)%Z -> (resolution <= 2 ^ 53)%Z ->
  - 100 <= phaseShift <= 100 ->
  let v := sinValue (JSNumber0 := Rounded a) numBlades phaseShift resolution i b in
  let v' := sinValue (JSNumber0 := RealNumber) numBlades phaseShift resolution i b in
  - (302 * u) <= v - v' <= 302 * u /\ - 1 <= v' <= 1.
Proof.
  intros Hb HB Hi Hres Hphi.
  destruct (argument_close numBlades phaseShift resolution i b Hb HB Hi Hres Hphi)
    as [Hclose Hrange].
  cbv zeta. unfold sinValue.
  change (Math_sin (JSNumber := Rounded a)) with (r_sin a).
  change (Math_sin (JSNumber := RealNumber)) with sin.
  set (x := add (JSNumber := Rounded a) _ _) in *.
  set (y := add (JSNumber := RealNumber) _ _) in *.
  pose proof (acc_sin x Hrange) as Hs.
  pose proof (sin_lipschitz x y) as Hl.
  assert (Rabs (x - y) <= 300 * u) as Hxy by (apply Rabs_le; lra).
  assert (Rabs (sin x - sin y) <= 300 * u) as Hl' by lra.
  apply Rabs_le_between in Hl'.
  pose proof (SIN_bound y). split; lra.
Qed.

Lemma sin2Value_close (numBlades : Z) (phaseShift : R) (resolution : Z) (i b : nat) :
  (Z.of_nat b < numBlades)%Z -> (numBlades <= 2 ^ 53)%Z ->
  (Z.of_nat i < resolution)%Z -> (resolution <= 2 ^ 53)%Z ->
  - 100 <= phaseShift <= 100 ->
  let w := sin2Value (JSNumber0 := Rounded a) numBlades phaseShift resolution i b in
  let w' := sin2Value (JSNumber0 := RealNumber) numBlades phaseShift resolution i b in
  - (610 * u) <= w - w' <= 610 * u /\ 0 <= w' <= 1.
Proof.
  intros Hb HB Hi Hres Hphi.
  destruct (sinValue_close numBlades phaseShift resolution i b Hb HB Hi Hres Hphi)
    as [Hclose Hrange].
  cbv zeta.
  change (sin2Value (JSNumber0 := Rounded a) numBlades phaseShift resolution i b)
    with (r_pow a (sinValue (JSNumber0 := Rounded a)
                     numBlades phaseShift resolution i b) 2).
  change (sin2Value (JSNumber0 := RealNumber) numBlades phaseShift resolution i b)
    with (powerRZ (sinValue (JSNumber0 := RealNumber)
                     numBlades phaseShift resolution i b) 2).
  set (v := sinValue (JSNumber0 := Rounded a) _ _ _ _ _) in *.
  set (v' := sinValue (JSNumber0 := RealNumber) _ _ _ _ _) in *.
  pose proof unit_roundoff_bounds as [Hu0 Hu1].
  pose proof underflow_unit_bounds as [He0 He1].
  assert (- 2 <= v <= 2) as Hv by lra.
  pose proof (acc_pow v Hv) as Hp.
  replace (powerRZ v' 2) with (v' * v') by (simpl; ring).
  assert (v * v - v' * v' = (v - v') * (v + v')) as Hsq by ring.
  assert (- (302 * u * 2.1) <= (v - v') * (v + v') <= 302 * u * 2.1) as Hd by nra.
  assert (0 <= v * v <= 1.1) as Hvv by nra.
  (split; nra).
Qed.

(** Adding up [n] terms of size about 1 with rounding, against the exact
    sum of the same terms. *)
Lemma accumulate_close (g : nat -> R) (n : nat) :
  (n <= 1000)%nat ->
  (forall b, (b < n)%nat -> - 1.05 <= g b <= 1.05) ->
  let s := reduce_sum (JSNumber0 := Rounded a) (g <$> seq 0 n) in
  let s' := reduce_sum (JSNumber0 := RealNumber) (g <$> seq 0 n) in
  - (1100 * u * INR n) <= s - s' <= 1100 * u * INR n /\
  - (1.05 * INR n) <= s' <= 1.05 * INR n.
Proof.
  pose proof unit_roundoff_bounds as [Hu0 Hu1].
  pose proof underflow_unit_bounds as [He0 He1].
  induction n as [|n IH]; intros Hn Hg; cbv zeta.
  - unfold reduce_sum. simpl. lra.
  - destruct IH as [IH1 IH2]; [lia|intros b Hb; apply Hg; lia|].
    rewrite S_INR.
    unfold reduce_sum in *. rewrite seq_S, fmap_app, !fold_left_app. simpl.
    set (s := fold_left (add (JSNumber := Rounded a)) (g <$> seq 0 n)
                        (ofZ (JSNumber := Rounded a) 0)) in *.
    set (s' := fold_left (add (JSNumber := RealNumber)) (g <$> seq 0 n)
                         (ofZ (JSNumber := RealNumber) 0)) in *.
    change (fold_left (r_add a) (g <$> seq 0 n) 0) with s.
    change (fold_left Rplus (g <$> seq 0 n) 0) with s'.
    specialize (Hg n ltac:(lia)).
    assert (INR n <= 999) as HN.
    { replace 999 with (INR 999) by (simpl; lra). apply le_INR. lia. }
    assert (0 <= INR n) as HN0 by apply pos_INR.
    assert (- (u * 1060 + eta) <= r_add a s (g n) - (s + g n) <= u * 1060 + eta)
      as Hadd by (apply acc_add; nra).
    split; nra.
Qed.

Lemma exact_sum_bound (g : nat -> R) (n : nat) (c : R) :
  (forall b, (b < n)%nat -> - c <= g b <= c) ->
  - (c * INR n) <= reduce_sum (JSNumber0 := RealNumber) (g <$> seq 0 n) <= c * INR n.
Proof.
  induction n as [|n IH]; intros Hg.
  - unfold reduce_sum. simpl. lra.
  - rewrite reduce_sum_S, S_INR. specialize (Hg n ltac:(lia)) as Hn.
    assert (forall b, (b < n)%nat -> - c <= g b <= c) as Hg'
      by (intros b Hb; apply Hg; lia).
    specialize (IH Hg'). lra.
Qed.

(** The rounded sum of the rounded sine values of a sample. *)
Lemma rounded_sine_sum_small (numBlades : Z) (phaseShift : R) (resolution : Z)
  (i : nat) :
  (2 <= numBlades <= 1000)%Z -> Rabs phaseShift <= 100 ->
  (0 < resolution <= 2 ^ 53)%Z -> (Z.of_nat i < resolution)%Z ->
  Rabs (reduce_sum (JSNumber0 := Rounded a)
          (sinValue (JSNumber0 := Rounded a) numBlades phaseShift resolution i
             <$> upto numBlades)) <= / 10 ^ 9.
Proof.
  intros HB Hphi Hres Hi. apply Rabs_le_between in Hphi.
  pose proof unit_roundoff_bounds as [Hu0 Hu1].
  set (v := sinValue (JSNumber0 := Rounded a) numBlades phaseShift resolution i).
  set (v' := sinValue (JSNumber0 := RealNumber) numBlades phaseShift resolution i).
  assert (forall b, (b < Z.to_nat numBlades)%nat ->
            - (302 * u) <= v b - v' b <= 302 * u /\ - 1 <= v' b <= 1) as Hclose.
  { intros b Hb. apply sinValue_close; lia || done. }
  unfold upto. set (n := Z.to_nat numBlades) in *.
  assert (INR n <= 1000) as Hn.
  { unfold n. rewrite INR_to_nat by lia. apply IZR_le. lia. }
  assert (0 <= INR n) as Hn0 by apply pos_INR.
  destruct (accumulate_close v n) as [Hacc _].
  { unfold n. lia. }
  { intros b Hb. destruct (Hclose b Hb). lra. }
  pose proof (exact_sum_bound (fun b => v b - v' b) n (302 * u)) as Hdiff.
  rewrite (reduce_sum_minus v v') in Hdiff.
  specialize (Hdiff ltac:(intros b Hb; by destruct (Hclose b Hb))).
  pose proof (sine_sum_zero numBlades phaseShift resolution i ltac:(lia)) as Hzero.
  unfold upto in Hzero. fold n in Hzero. fold v' in Hzero.
  apply Rabs_le. nra.
Qed.

(** The rounded sum of the rounded squared values of a sample. *)
Lemma rounded_squared_sum_close (numBlades : Z) (phaseShift : R) (resolution : Z)
  (i : nat) :
  (3 <= numBlades <= 1000)%Z -> Rabs phaseShift <= 100 ->
  (0 < resolution <= 2 ^ 53)%Z -> (Z.of_nat i < resolution)%Z ->
  Rabs (reduce_sum (JSNumber0 := Rounded a)
          (sin2Value (JSNumber0 := Rounded a) numBlades phaseShift resolution i
             <$> upto numBlades)
        - IZR numBlades / 2) <= / 10 ^ 9.
Proof.
  intros HB Hphi Hres Hi. apply Rabs_le_between in Hphi.
  pose proof unit_roundoff_bounds as [Hu0 Hu1].
  set (w := sin2Value (JSNumber0 := Rounded a) numBlades phaseShift resolution i).
  set (w' := sin2Value (JSNumber0 := RealNumber) numBlades phaseShift resolution i).
  assert (forall b, (b < Z.to_nat numBlades)%nat ->
            - (610 * u) <= w b - w' b <= 610 * u /\ 0 <= w' b <= 1) as Hclose.
  { intros b Hb. apply sin2Value_close; lia || done. }
  unfold upto. set (n := Z.to_nat numBlades) in *.
  assert (INR n <= 1000) as Hn.
  { unfold n. rewrite INR_to_nat by lia. apply IZR_le. lia. }
  assert (0 <= INR n) as Hn0 by apply pos_INR.
  destruct (accumulate_close w n) as [Hacc _].
  { unfold n. lia. }
  { intros b Hb. destruct (Hclose b Hb). lra. }
  pose proof (exact_sum_bound (fun b => w b - w' b) n (610 * u)) as Hdiff.
  rewrite (reduce_sum_minus w w') in Hdiff.
  specialize (Hdiff ltac:(intros b Hb; by destruct (Hclose b Hb))).
  pose proof (squared_sum_half numBlades phaseShift resolution i ltac:(lia)) as Hhalf.
  unfold upto in Hhalf. fold n in Hhalf. fold w' in Hhalf.
  apply Rabs_le. nra.
Qed.

End ErrorAnalysis.

Section Tolerance.
Local Open Scope R_scope.

Lemma exact_rounding_accurate : binary64_accurate exact_rounding.
Proof.
  pose proof unit_roundoff_bounds as [Hu0 _].
  pose proof underflow_unit_bounds as [He0 _].
  assert (forall x, rounds x x) as Hrounds.
  { intros x. unfold rounds. replace (x - x) with 0 by ring. rewrite Rabs_R0.
    pose proof (Rabs_pos x). nra. }
  unfold binary64_accurate. simpl. repeat split; try (intros; apply Hrounds).
  - replace (PI - PI) with 0 by ring. rewrite Rabs_R0. lra.
  - intros x _. replace (sin x - sin x) with 0 by ring. rewrite Rabs_R0. lra.
  - intros x _. replace (x * (x * 1) - x * x) with 0 by ring. rewrite Rabs_R0. nra.
Qed.

(** C6 (as amended): in binary64 the sines cancel within a tolerance, for
    moderate inputs.  For every arithmetic that rounds as binary64 does
    ([binary64_accurate]), every [numBlades] from 2 to 1000, every
    [phaseShift] of magnitude at most 100, every [resolution] from 1 to
    [2^53] and every sample index [i], the sum over the blades of the sine
    values of sample [i] is within [10^-9] of 0: as the code adds the raw
    values up, as the entry of [sinSums] after the first pass, and as the
    [sum] property of the sample when no mean is subtracted. *)
Theorem sine_sum_within_tolerance
  (a : Rounding) (numBlades : Z) (phaseShift : R) (resolution : Z) (i : nat) :
  binary64_accurate a ->
  (2 <= numBlades <= 1000)%Z -> Rabs phaseShift <= 100 ->
  (0 < resolution <= 2 ^ 53)%Z -> (Z.of_nat i < resolution)%Z ->
  Rabs (reduce_sum (JSNumber0 := Rounded a)
          (sinValue (JSNumber0 := Rounded a) numBlades phaseShift resolution i
             <$> upto numBlades)) <= / 10 ^ 9 /\
  (exists (c : Collected) (s : R),
      firstPass (JSNumber0 := Rounded a) numBlades phaseShift resolution = Some c /\
      sinSums c !! i = Some s /\ Rabs s <= / 10 ^ 9) /\
  (exists (d : Datasets R) (p : DataPoint R) (s : R),
      generateData (JSNumber0 := Rounded a) numBlades phaseShift resolution false
      = Some d /\
      sinData d !! i = Some p /\ sum_value p = Some s /\ Rabs s <= / 10 ^ 9).
Proof.
  intros Ha HB Hphi Hres Hi.
  pose proof (rounded_sine_sum_small a Ha numBlades phaseShift resolution i
                HB Hphi Hres Hi) as Hsmall.
  split; [done|]. split.
  - eexists _, _. split; [apply firstPass_eq|]. simpl.
    rewrite running_start, fmap_upto_lookup by lia. split; [done|]. exact Hsmall.
  - destruct (generateData (JSNumber0 := Rounded a)
                numBlades phaseShift resolution false)
      as [d|] eqn:Hd; [|by rewrite generateData_eq in Hd].
    eexists d, _, _. split; [done|].
    split; [eapply (sinData_sample (JSNumber0 := Rounded a)); [exact Hd|lia]|].
    split; [apply point_sum_value|]. exact Hsmall.
Qed.

(** C7 (as amended): in binary64 the squares add up to half the number of
    blades within a tolerance, from three blades on and for moderate inputs.
    For every arithmetic that rounds as binary64 does ([binary64_accurate]),
    every [numBlades] from 3 to 1000, every [phaseShift] of magnitude at most
    100, every [resolution] from 1 to [2^53] and every sample index [i], the
    sum over the blades of the squared values of sample [i] is within
    [10^-9] of [numBlades / 2], whatever the phase shift and the angle: as
    the code adds the raw values up, as the entry of [sin2Sums] after the
    first pass, and as the [sum] property of the sample when no mean is
    subtracted. *)
Theorem squared_sum_within_tolerance
  (a : Rounding) (numBlades : Z) (phaseShift : R) (resolution : Z) (i : nat) :
  binary64_accurate a ->
  (3 <= numBlades <= 1000)%Z -> Rabs phaseShift <= 100 ->
  (0 < resolution <= 2 ^ 53)%Z -> (Z.of_nat i < resolution)%Z ->
  Rabs (reduce_sum (JSNumber0 := Rounded a)
          (sin2Value (JSNumber0 := Rounded a) numBlades phaseShift resolution i
             <$> upto numBlades)
        - IZR numBlades / 2) <= / 10 ^ 9 /\
  (exists (c : Collected) (s : R),
      firstPass (JSNumber0 := Rounded a) numBlades phaseShift resolution = Some c /\
      sin2Sums c !! i = Some s /\ Rabs (s - IZR numBlades / 2) <= / 10 ^ 9) /\
  (exists (d : Datasets R) (p : DataPoint R) (s : R),
      generateData (JSNumber0 := Rounded a) numBlades phaseShift resolution false
      = Some d /\
      sin2Data d !! i = Some p /\ sum_value p = Some s /\
      Rabs (s - IZR numBlades / 2) <= / 10 ^ 9).
Proof.
  intros Ha HB Hphi Hres Hi.
  pose proof (rounded_squared_sum_close a Ha numBlades phaseShift resolution i
                HB Hphi Hres Hi) as Hclose.
  split; [done|]. split.
  - eexists _, _. split; [apply firstPass_eq|]. simpl.
    rewrite running_start, fmap_upto_lookup by lia. split; [done|]. exact Hclose.
  - destruct (generateData (JSNumber0 := Rounded a)
                numBlades phaseShift resolution false)
      as [d|] eqn:Hd; [|by rewrite generateData_eq in Hd].
    eexists d, _, _. split; [done|].
    split; [eapply (sin2Data_sample (JSNumber0 := Rounded a)); [exact Hd|lia]|].
    split; [apply point_sum_value|]. exact Hclose.
Qed.

End Tolerance.

(** ** Runs in binary64 *)

Section Binary64Runs.
Local Open Scope float_scope.

(** C6, as stated, fails for large phase shifts.  In binary64, with 3 blades,
    one sample and [phaseShift = 1e22], adding the angle and the blade's
    share of the turn changes nothing: every blade has the argument [1e22],
    whatever the engine's functions are, and the code's sum is
    [((0 + s) + s) + s] for the one value [s = Math.sin(1e22)].  Where that
    value is the double nearest to the sine, -0.8522008497671888, the sum is
    -2.5566025493015663. *)
Lemma sine_sum_does_not_cancel_at_1e22 :
  (forall (Math_sin64 : float -> float) (Math_pow64 : float -> Z -> float)
          (toFixed64 : float -> nat -> string) (b : nat),
      (b < 3)%nat ->
      let J := Binary64 Math_sin64 Math_pow64 toFixed64 in
      add (JSNumber := J) (theta_of (JSNumber0 := J) 1 0)
          (phase_of (JSNumber0 := J) 3 1e22 b) = 1e22) /\
  (forall (Math_sin64 : float -> float) (Math_pow64 : float -> Z -> float)
          (toFixed64 : float -> nat -> string),
      let J := Binary64 Math_sin64 Math_pow64 toFixed64 in
      let s := Math_sin64 1e22 in
      reduce_sum (JSNumber0 := J) (sinValue (JSNumber0 := J) 3 1e22 1 0 <$> upto 3)
      = ((0 + s) + s) + s) /\
  (forall (Math_sin64 : float -> float) (Math_pow64 : float -> Z -> float)
          (toFixed64 : float -> nat -> string),
      Math_sin64 1e22 = -0x1.b453ab76bf397p-1 ->
      let J := Binary64 Math_sin64 Math_pow64 toFixed64 in
      exists c : Collected,
        firstPass (JSNumber0 := J) 3 1e22 1 = Some c /\
        sinSums c !! 0%nat = Some (-0x1.473ec0990f6b1p+1)).
Proof.
  split; [|split].
  - intros s p t b Hb J.
    destruct b as [|[|[|b]]]; [reflexivity|reflexivity|reflexivity|lia].
  - intros s p t J. reflexivity.
  - intros s p t Hs J. eexists. split; [apply firstPass_eq|].
    unfold collected_after. cbn [sinSums].
    rewrite running_start, fmap_upto_lookup by lia.
    f_equal. change (((0 + s 1e22) + s 1e22) + s 1e22
                     = -0x1.473ec0990f6b1p+1).
    rewrite Hs. reflexivity.
Qed.

(** The same run for the squares: with 3 blades and [phaseShift = 1e22] the
    code's sum is [((0 + w) + w) + w] for the one value
    [w = Math.pow(Math.sin(1e22), 2)]; where the sine is -0.8522008497671888
    and its square 0.7262462883439187, the sum is 2.178738865031756, not
    1.5. *)
Lemma squared_sum_off_at_1e22 :
  (forall (Math_sin64 : float -> float) (Math_pow64 : float -> Z -> float)
          (toFixed64 : float -> nat -> string),
      let J := Binary64 Math_sin64 Math_pow64 toFixed64 in
      let w := Math_pow64 (Math_sin64 1e22) 2%Z in
      reduce_sum (JSNumber0 := J) (sin2Value (JSNumber0 := J) 3 1e22 1 0 <$> upto 3)
      = ((0 + w) + w) + w) /\
  (forall (Math_sin64 : float -> float) (Math_pow64 : float -> Z -> float)
          (toFixed64 : float -> nat -> string),
      Math_sin64 1e22 = -0x1.b453ab76bf397p-1 ->
      Math_pow64 (-0x1.b453ab76bf397p-1) 2%Z = 0x1.73d68db28e99cp-1 ->
      let J := Binary64 Math_sin64 Math_pow64 toFixed64 in
      exists c : Collected,
        firstPass (JSNumber0 := J) 3 1e22 1 = Some c /\
        sin2Sums c !! 0%nat = Some 0x1.16e0ea45eaf35p+1).
Proof.
  split.
  - intros s p t J. reflexivity.
  - intros s p t Hs Hp J. eexists. split; [apply firstPass_eq|].
    unfold collected_after. cbn [sin2Sums].
    rewrite running_start, fmap_upto_lookup by lia.
    f_equal. change (((0 + p (s 1e22) 2%Z) + p (s 1e22) 2%Z) + p (s 1e22) 2%Z
                     = 0x1.16e0ea45eaf35p+1).
    rewrite Hs, Hp. reflexivity.
Qed.




End Binary64Runs.

(** ** Runs without rounding error *)

Section ToleranceRuns.
Local Open Scope R_scope.

(** Three blades, four samples, no phase shift, in the arithmetic that does
    not round. *)
Lemma sine_sum_within_tolerance_witness :
  (binary64_accurate exact_rounding /\ (2 <= 3 <= 1000)%Z /\ Rabs 0 <= 100 /\
   (0 < 4 <= 2 ^ 53)%Z /\ (Z.of_nat 1 < 4)%Z) /\
  Rabs (reduce_sum (JSNumber0 := Rounded exact_rounding)
          (sinValue (JSNumber0 := Rounded exact_rounding) 3 0 4 1 <$> upto 3))
  <= / 10 ^ 9.
Proof.
  pose proof exact_rounding_accurate as H0.
  assert (2 <= 3 <= 1000)%Z as H1 by lia.
  assert (Rabs 0 <= 100) as H2 by (rewrite Rabs_R0; lra).
  assert (0 < 4 <= 2 ^ 53)%Z as H3 by lia.
  assert (Z.of_nat 1 < 4)%Z as H4 by lia.
  split; [done|].
  exact (proj1 (sine_sum_within_tolerance exact_rounding 3 0 4 1 H0 H1 H2 H3 H4)).
Defined.

Lemma squared_sum_within_tolerance_witness :
  (binary64_accurate exact_rounding /\ (3 <= 3 <= 1000)%Z /\ Rabs 0 <= 100 /\
   (0 < 4 <= 2 ^ 53)%Z /\ (Z.of_nat 1 < 4)%Z) /\
  Rabs (reduce_sum (JSNumber0 := Rounded exact_rounding)
          (sin2Value (JSNumber0 := Rounded exact_rounding) 3 0 4 1 <$> upto 3)
        - 3 / 2)
  <= / 10 ^ 9.
Proof.
  pose proof exact_rounding_accurate as H0.
  assert (3 <= 3 <= 1000)%Z as H1 by lia.
  assert (Rabs 0 <= 100) as H2 by (rewrite Rabs_R0; lra).
  assert (0 < 4 <= 2 ^ 53)%Z as H3 by lia.
  assert (Z.of_nat 1 < 4)%Z as H4 by lia.
  split; [done|].
  exact (proj1 (squared_sum_within_tolerance exact_rounding 3 0 4 1 H0 H1 H2 H3 H4)).
Defined.

End ToleranceRuns.
